(** * DiscTrackSplitter: the cue-sheet parser and the file resolver of split.py

    A shallow embedding of [parse_cue], [determine_cue], [determine_wav] and
    [determine_cover] of [split.py], and the properties of the sheet parser
    and of the resolution heuristics proved about it.

    Text.  A Python [str] is modelled by [string]; a character is an [ascii],
    read as the code point of the same number (U+0000 to U+00FF).  The
    character classes of the source ([A-Z], [0-9], the whitespace removed by
    [str.strip], the case mapping of [str.lower]) are written out for this
    range.

    Objects.  The dictionaries built by [parse_cue] are mutable and shared
    ([current_dict] is an alias of [disc_dict] or of the last element of
    [track_list]), so the parser state holds a store of dictionaries addressed
    by reference.

    Exceptions.  A function that can raise returns a [result].

    The interpreter.  Where the behaviour depends on the interpreter, the
    model follows CPython from version 3.11 on a POSIX system: [int] refuses
    a text of more than 4300 digits, a directory that cannot be listed is an
    [OSError], and the messages of the [TypeError]s are those of this
    interpreter. *)

From Stdlib Require Import Ascii NArith ZArith Lia DecimalString.
From Stdlib Require String DecimalPos DecimalZ.
From stdpp Require Import base option list gmap strings.

Local Open Scope stdpp_scope.

(** ** Exceptions *)

Inductive exn : Type :=
  | AssertionError (msg : string)
  | KeyError (key : string)
  | TypeError (msg : string)
  | ValueError
  | OSError.

Inductive result (A : Type) : Type :=
  | Ok (a : A)
  | Raise (e : exn).
Arguments Ok {A} a.
Arguments Raise {A} e.

#[global] Instance result_ret : MRet result := fun _ a => Ok a.
#[global] Instance result_bind : MBind result := fun _ _ k r =>
  match r with
  | Ok a => k a
  | Raise e => Raise e
  end.

Definition raises {A} (r : result A) : Prop := ∃ e, r = Raise e.

(** ** Python strings *)

Module Str.

(** The double quote character. *)
Definition dq : ascii := "034"%char.
(** The line feed, ["\n"]. *)
Definition nl : ascii := "010"%char.

(** [quoted s] is [s] between two double quotes. *)
Definition quoted (s : string) : string := String dq (s +:+ String dq "").

Definition code (c : ascii) : N := N_of_ascii c.

Definition in_range (lo hi : N) (c : ascii) : bool :=
  ((lo <=? code c) && (code c <=? hi))%N.

(** [str.isspace] on one character: the whitespace of [str.strip()]. *)
Definition is_space (c : ascii) : bool :=
  in_range 9 13 c || in_range 28 32 c
  || (code c =? 133)%N || (code c =? 160)%N.

(** The class [[A-Z]]. *)
Definition is_upper (c : ascii) : bool := in_range 65 90 c.
(** The class [[A-Z_]]. *)
Definition is_upper_us (c : ascii) : bool := is_upper c || (code c =? 95)%N.
(** The class [[0-9]]. *)
Definition is_digit (c : ascii) : bool := in_range 48 57 c.
(** The class [[0-9:]]. *)
Definition is_digit_colon (c : ascii) : bool := is_digit c || (code c =? 58)%N.
(** The regular expression [.]: every character but the line feed. *)
Definition is_dot (c : ascii) : bool := negb (code c =? 10)%N.

(** [len(s) <= 0] *)
Definition is_empty (s : string) : bool :=
  match s with "" => true | String _ _ => false end.

(** [s.lstrip()] *)
Fixpoint lstrip (s : string) : string :=
  match s with
  | "" => ""
  | String c s' => if is_space c then lstrip s' else s
  end.

(** [s.rstrip()] *)
Fixpoint rstrip (s : string) : string :=
  match s with
  | "" => ""
  | String c s' =>
      let r := rstrip s' in
      if is_space c && is_empty r then "" else String c r
  end.

(** [s.strip()] *)
Definition strip (s : string) : string := rstrip (lstrip s).

(** [s[0]], when there is one. *)
Definition first (s : string) : option ascii :=
  match s with "" => None | String c _ => Some c end.

(** [s[-1]], when there is one. *)
Fixpoint last (s : string) : option ascii :=
  match s with
  | "" => None
  | String c "" => Some c
  | String _ s' => last s'
  end.

(** [s[1:]] *)
Definition tail (s : string) : string :=
  match s with "" => "" | String _ s' => s' end.

(** [s[:-1]] *)
Fixpoint init (s : string) : string :=
  match s with
  | "" => ""
  | String _ "" => ""
  | String c s' => String c (init s')
  end.

(** [s[1:-1]] *)
Definition slice_1_m1 (s : string) : string := init (tail s).

(** [s[:n]] *)
Fixpoint take (n : nat) (s : string) : string :=
  match n, s with
  | S n', String c s' => String c (take n' s')
  | _, _ => ""
  end.

(** [s.split(sep)] for a separator of one character: the pieces between
    separators; never empty. *)
Fixpoint split (sep : ascii) (s : string) : list string :=
  match s with
  | "" => [""]
  | String c s' =>
      if Ascii.eqb c sep then "" :: split sep s'
      else match split sep s' with
           | [] => [String c ""]
           | l :: ls => String c l :: ls
           end
  end.

(** [s.rfind(".")], as an index, when there is a dot. *)
Fixpoint rfind_dot (s : string) : option nat :=
  match s with
  | "" => None
  | String c s' =>
      match rfind_dot s' with
      | Some i => Some (S i)
      | None => if Ascii.eqb c "."%char then Some 0 else None
      end
  end.

(** [s[n:]] *)
Fixpoint drop (n : nat) (s : string) : string :=
  match n, s with
  | 0, _ => s
  | S n', String _ s' => drop n' s'
  | S _, "" => ""
  end.

(** One character of [str.lower()]: the capital letters of the range have
    their small letter 32 places further. *)
Definition lower_char (c : ascii) : ascii :=
  if in_range 65 90 c || (in_range 192 222 c && negb (code c =? 215)%N)
  then ascii_of_N (code c + 32) else c.

(** [s.lower()] *)
Fixpoint lower (s : string) : string :=
  match s with
  | "" => ""
  | String c s' => String (lower_char c) (lower s')
  end.

Definition all (p : ascii → bool) : string → bool :=
  fix go s := match s with "" => true | String c s' => p c && go s' end.

(** The number that a text of decimal digits denotes, whatever its length;
    [None] for the empty text and for a text with another character. *)
Definition digit_val (c : ascii) : Z := Z.of_N (code c) - 48.

Fixpoint int_acc (acc : Z) (s : string) : option Z :=
  match s with
  | "" => Some acc
  | String c s' =>
      if is_digit c then int_acc (10 * acc + digit_val c) s' else None
  end.

Definition decimal (s : string) : option Z :=
  if is_empty s then None else int_acc 0 s.

(** [sys.int_max_str_digits], the default limit of the interpreter on the
    digits of a text that [int] converts. *)
Definition int_max_str_digits : nat := 4300.

(** [int(s)] on a text of decimal digits; [None] stands for [ValueError]:
    the one of a text of more digits than the limit (zeros on the left
    count), and the one of any other text the model is given (the parser
    only converts a text matched by [[0-9]+]). *)
Definition int (s : string) : option Z :=
  if (int_max_str_digits <? String.length s)%nat then None else decimal s.

End Str.

(** ** The regular expressions of [parse_cue]

    [re.match] tries the alternatives of a pattern in order, longest
    repetition first, and backtracks.  The pieces below are matchers in
    continuation style: each takes the matcher [k] of what follows in the
    pattern and the text left, and returns the first success in that order. *)

Module Re.
Import Str.

Section Matchers.
Context {R : Type}.

(** [X+] for a character class [X]: as many as possible, at least one,
    giving back one at a time while [k] fails.  The text matched is
    returned with the result of [k]. *)
Fixpoint plus (cls : ascii → bool) (k : string → option R) (s : string)
  : option (string * R) :=
  match s with
  | "" => None
  | String c s' =>
      if cls c then
        match plus cls k s' with
        | Some (v, r) => Some (String c v, r)
        | None =>
            match k s' with
            | Some r => Some (String c "", r)
            | None => None
            end
        end
      else None
  end.

(** [X{lo,hi}]: as many as possible up to [hi], at least [lo]. *)
Fixpoint rep (cls : ascii → bool) (lo hi : nat) (k : string → option R)
  (s : string) : option (string * R) :=
  let stop := if lo is 0 then (r ← k s; Some ("", r)) else None in
  match hi with
  | 0 => stop
  | S hi' =>
      match s with
      | "" => stop
      | String c s' =>
          if cls c then
            match rep cls (pred lo) hi' k s' with
            | Some (v, r) => Some (String c v, r)
            | None => stop
            end
          else stop
      end
  end.

(** A literal text. *)
Fixpoint lit (t : string) (k : string → option R) (s : string) : option R :=
  match t with
  | "" => k s
  | String c t' =>
      match s with
      | String c' s' => if Ascii.eqb c c' then lit t' k s' else None
      | "" => None
      end
  end.
End Matchers.

(** [$]: the end of the text, or just before a line feed that ends it. *)
Definition eol (s : string) : option unit :=
  match s with
  | "" => Some ()
  | String c "" => if (code c =? 10)%N then Some () else None
  | _ => None
  end.

(** The match object, as far as [parse_cue] reads it: [m[1]] and [m[2]]. *)
Definition groups : Type := string * string.

(** ["^(REM [A-Z_]+) (.+)$"] *)
Definition p_rem (s : string) : option groups :=
  lit "REM " (fun s1 =>
    '(name, v) ← plus is_upper_us (lit " " (fun s2 =>
                    '(v, _) ← plus is_dot eol s2; Some v)) s1;
    Some ("REM " +:+ name, v)) s.

(** ["^(FILE) (.+) [A-Z]{3,4}$"] *)
Definition p_file (s : string) : option groups :=
  lit "FILE " (fun s1 =>
    '(v, _) ← plus is_dot (lit " " (rep is_upper 3 4 eol)) s1;
    Some ("FILE", v)) s.

(** ["^(TRACK) ([0-9]+) AUDIO$"] *)
Definition p_track (s : string) : option groups :=
  lit "TRACK " (fun s1 =>
    '(v, _) ← plus is_digit (lit " AUDIO" eol) s1;
    Some ("TRACK", v)) s.

(** ["^(INDEX) ([0-9]+) ([0-9:]{8,11})$"] *)
Definition p_index (s : string) : option groups :=
  lit "INDEX " (fun s1 =>
    '(v, _) ← plus is_digit (lit " " (rep is_digit_colon 8 11 eol)) s1;
    Some ("INDEX", v)) s.

(** ["^([A-Z]+) (.+)$"] *)
Definition p_generic (s : string) : option groups :=
  plus is_upper (lit " " (fun s2 => '(v, _) ← plus is_dot eol s2; Some v)) s.

End Re.

(** ** The command line

    The flags of the program that the modelled functions read. *)

Record Flags : Type := {
  cue : option string;
  wav : option string;
  cover : option string;
  disc_performer_override : option string;
}.

(** ** parse_cue *)

(** A value of the dictionary that [parse_cue] returns: a text, or, under
    ["TRACK_LIST"], the list of the track dictionaries. *)
Inductive value : Type :=
  | VStr (s : string)
  | VList (l : list (gmap string string)).

Module Cue.
Import Str.

(** The nested function [unquote(s, strip)]. *)
Definition unquote (s : string) (strip : bool) : string :=
  let s_stripped := Str.strip s in
  if (2 <=? String.length s_stripped)%nat
     && bool_decide (first s_stripped = Some dq)
     && bool_decide (last s_stripped = Some dq)
  then
    if strip then Str.strip (slice_1_m1 s_stripped)
    else slice_1_m1 s_stripped
  else
    if strip then s_stripped else s.

(** The choice of the pattern by the first characters of the line, and
    [re.match(p, line)]. *)
Definition pattern (line : string) : string → option Re.groups :=
  if String.eqb (take 4 line) "REM " then Re.p_rem
  else if String.eqb (take 5 line) "FILE " then Re.p_file
  else if String.eqb (take 6 line) "TRACK " then Re.p_track
  else if String.eqb (take 6 line) "INDEX " then Re.p_index
  else Re.p_generic.

Definition re_match (line : string) : option Re.groups := pattern line line.

(** A reference to a dictionary of the store. *)
Abbreviation ref := nat (only parsing).

(** The local variables of [parse_cue] while it reads the lines.
    [disc_dict] is bound once, to the first dictionary of the store. *)
Record state : Type := {
  store : list (gmap string string);
  track_list : list ref;
  current_dict : ref;
}.

Definition disc_dict : ref := 0.

Definition initial : state :=
  {| store := [∅]; track_list := []; current_dict := disc_dict |}.

(** The dictionary a reference stands for. *)
Definition deref (st : state) (r : ref) : gmap string string :=
  default ∅ (store st !! r).

(** [current_dict[key] = val].  [current_dict] always refers to a dictionary
    of the store ([wf] below); [alter] leaves the store as it is for a
    reference that does not. *)
Definition setitem (key val : string) (st : state) : state :=
  {| store := alter (insert key val) (current_dict st) (store st);
     track_list := track_list st;
     current_dict := current_dict st |}.

(** The value of a directive: [unquote(m[2], strip=True)], replaced by the
    performer override for a [PERFORMER] line before the first track. *)
Definition value_of (flags : Flags) (st : state) (key m2 : string) : string :=
  let val := unquote m2 true in
  match disc_performer_override flags with
  | Some o =>
      if String.eqb key "PERFORMER" && (length (track_list st) =? 0)%nat
      then o else val
  | None => val
  end.

(** The creation of a track item:
    [track_dict = disc_dict.copy()], [del track_dict["TITLE"]] if it is
    there, [current_dict = track_dict], [track_list.append(track_dict)].
    The copy is a new dictionary of the store. *)
Definition new_track (st : state) : state :=
  let track_dict := delete "TITLE" (deref st disc_dict) in
  {| store := store st ++ [track_dict];
     track_list := track_list st ++ [length (store st)];
     current_dict := length (store st) |}.

(** The body of the loop once the line is stripped and not empty. *)
Definition directive (flags : Flags) (st : state) (line : string)
  : result state :=
  match re_match line with
  | None => Raise (AssertionError ("Line parse failed: " +:+ line))
  | Some (key, m2) =>
      let val := value_of flags st key m2 in
      if is_empty val then Ok st
      else if String.eqb key "INDEX" then Ok st
      else if String.eqb key "TRACK" then
        match int val with
        | None => Raise ValueError
        | Some track_no =>
            if (track_no =? Z.of_nat (length (track_list st)) + 1)%Z
            then Ok (new_track st)
            else Raise (AssertionError "")
        end
      else if String.eqb key "TITLE" then
        Ok (setitem "TITLE_RAW" (unquote m2 false) (setitem key val st))
      else Ok (setitem key val st)
  end.

(** One turn of the loop. *)
Definition body (flags : Flags) (st : state) (line : string) : result state :=
  let line := strip line in
  if is_empty line then Ok st else directive flags st line.

(** [for line in ...: ...] *)
Fixpoint loop (flags : Flags) (st : state) (lines : list string)
  : result state :=
  match lines with
  | [] => Ok st
  | line :: lines' => st' ← body flags st line; loop flags st' lines'
  end.

(** The track dictionaries, in the order of [track_list]. *)
Definition tracks (st : state) : list (gmap string string) :=
  deref st <$> track_list st.

(** [for t in track_list: assert "TITLE" in t] *)
Definition check_titles (ts : list (gmap string string)) : bool :=
  forallb (fun t => bool_decide (is_Some (t !! "TITLE"))) ts.

(** What follows the loop. *)
Definition finish (st : state) : result (gmap string value) :=
  if check_titles (tracks st) then
    Ok (<["TRACK_LIST" := VList (tracks st)]> (VStr <$> deref st disc_dict))
  else Raise (AssertionError "").

Definition parse_cue (flags : Flags) (cue_content : string)
  : result (gmap string value) :=
  st ← loop flags initial (split nl cue_content); finish st.

End Cue.


(** ** Paths and the file system

    A [pathlib.Path] on a POSIX system is its list of components and whether
    it starts at the root.  What the program asks the operating system
    ([is_file], the names in a directory in the order the system lists them,
    [resolve]) is a [FileSystem]; a relative path is read by the system
    against the working directory, which is part of it.  A path that is
    missing, is no directory or may not be read has no listing. *)

Record Path : Type := {
  is_abs : bool;
  parts : list string;
}.

#[global] Instance Path_eq_dec : EqDecision Path.
Proof. solve_decision. Defined.

Module PathLib.
Import Str.

(** [Path(s)]: the components between slashes, without the empty ones and
    the single dots. *)
Definition of_str (s : string) : Path :=
  {| is_abs := bool_decide (first s = Some "/"%char);
     parts := filter (fun c => c ≠ "" ∧ c ≠ ".") (split "/" s) |}.

(** [p / s] *)
Definition joinpath (p : Path) (s : string) : Path :=
  let q := of_str s in
  if is_abs q then q
  else {| is_abs := is_abs p; parts := parts p ++ parts q |}.

(** The path of an entry [n] of the directory [p], as [iterdir] makes it. *)
Definition child (p : Path) (n : string) : Path :=
  {| is_abs := is_abs p; parts := parts p ++ [n] |}.

(** [p.parent] *)
Definition parent (p : Path) : Path :=
  {| is_abs := is_abs p; parts := removelast (parts p) |}.

(** [p.name] *)
Definition name (p : Path) : string := List.last (parts p) "".

(** The place of the dot that starts the suffix of a name: the last dot,
    when it is neither the first nor the last character. *)
Definition suffix_at (n : string) : option nat :=
  match rfind_dot n with
  | Some i =>
      if (0 <? i)%nat && (i <? String.length n - 1)%nat then Some i else None
  | None => None
  end.

(** [p.suffix] *)
Definition suffix (p : Path) : string :=
  match suffix_at (name p) with
  | Some i => drop i (name p)
  | None => ""
  end.

(** [p.stem] *)
Definition stem (p : Path) : string :=
  match suffix_at (name p) with
  | Some i => take i (name p)
  | None => name p
  end.

End PathLib.

Record FileSystem : Type := {
  is_file : Path → bool;
  listdir : Path → option (list string);
  resolve : Path → Path;
}.

(** [p.iterdir()], run to its end, in the order of the system; the
    [OSError] ([FileNotFoundError], [NotADirectoryError],
    [PermissionError]) of a path without listing. *)
Definition iterdir (fs : FileSystem) (p : Path) : result (list Path) :=
  match listdir fs p with
  | Some names => Ok (PathLib.child p <$> names)
  | None => Raise OSError
  end.

Infix "//" := PathLib.joinpath (at level 40, left associativity).

(** ** determine_cue, determine_wav, determine_cover *)

Module Resolve.
Import Str PathLib.

(** [raise "..."]: a text is not an exception, which is a [TypeError]. *)
Definition raise_str {A} (msg : string) : result A :=
  Raise (TypeError "exceptions must derive from BaseException").

Section Resolve.
Context (fs : FileSystem) (FLAGS : Flags).
(** [natsort.natsorted(l, key=key)], of the natsort package. *)
Context (natsorted : (Path → string) → list Path → list Path).

(** [if f.is_file(): return f.resolve()]: the value returned, if any. *)
Definition file_at (f : Path) : option Path :=
  if is_file fs f then Some (resolve fs f) else None.

Definition determine_cue (rootdir : option Path) : result Path :=
  match cue FLAGS with
  | None =>
      match rootdir with
      | None => Raise (AssertionError "Neither --input nor --cue specified.")
      | Some rootdir =>
          entries ← iterdir fs rootdir;
          let cues :=
            filter (fun x => is_file fs x = true ∧ lower (suffix x) = ".cue")
                   entries in
          match cues with
          | [] => Raise (AssertionError "No cue found in --input")
          | c :: _ => Ok (resolve fs c)
          end
      end
  | Some cue =>
      match rootdir with
      | Some rootdir =>
          if is_file fs (rootdir // cue)
          then Ok (resolve fs (rootdir // cue))
          else Raise (AssertionError "Invalid --cue file")
      | None =>
          if is_file fs (of_str cue)
          then Ok (resolve fs (of_str cue))
          else Raise (AssertionError "Invalid --cue file")
      end
  end.

(** [cue_dict["FILE"]], used as the right operand of [/]. *)
Definition declared_file (cue_dict : gmap string value) : result string :=
  match cue_dict !! "FILE" with
  | None => Raise (KeyError "FILE")
  | Some (VStr s) => Ok s
  | Some (VList _) =>
      Raise (TypeError
               "unsupported operand type(s) for /: 'PosixPath' and 'list'")
  end.

Definition AUDIO_SUFFIX : list string := split " " ".wav .ape .flac .tta".

(** [[x for x in dir.iterdir() if x.is_file() and ... in AUDIO_SUFFIX]] *)
Definition audio_files (dir : Path) : result (list Path) :=
  entries ← iterdir fs dir;
  Ok (filter (fun x => is_file fs x = true
                       ∧ lower (suffix x) ∈ AUDIO_SUFFIX) entries).

Definition determine_wav (rootdir : option Path) (cue_path : Path)
  (cue_dict : gmap string value) : result Path :=
  match wav FLAGS with
  | Some wav =>
      match rootdir ≫= (fun rootdir => file_at (rootdir // wav)) with
      | Some p => Ok p
      | None =>
      match file_at (of_str wav) with
      | Some p => Ok p
      | None =>
      match file_at (parent cue_path // wav) with
      | Some p => Ok p
      | None => raise_str "Invalid --wav file."
      end
      end
      end
  | None =>
      (* the declared file, in rootdir *)
      found ←
        match rootdir with
        | Some rootdir =>
            d ← declared_file cue_dict; Ok (file_at (rootdir // d))
        | None => Ok None
        end;
      match found with
      | Some p => Ok p
      | None =>
      (* the declared file, next to the sheet *)
      d ← declared_file cue_dict;
      match file_at (parent cue_path // d) with
      | Some p => Ok p
      | None =>
      (* a scan of rootdir *)
      scanned ←
        match rootdir with
        | Some rootdir =>
            wavs ← audio_files rootdir;
            match wavs with
            | [] => Ok None
            | [w] => Ok (Some (resolve fs w))
            | _ => raise_str "Unable to determine audio file: "
            end
        | None => Ok None
        end;
      match scanned with
      | Some p => Ok p
      | None =>
      (* a scan of the directory of the sheet *)
      wavs ← audio_files (parent cue_path);
      match wavs with
      | [] => raise_str "Unable to determine audio file: "
      | [w] => Ok (resolve fs w)
      | _ => raise_str "Unable to determine audio file: "
      end
      end
      end
      end
  end.

Definition COVER_SUFFIX : list string := split " " ".jpg .png .tif .tiff".

Definition PRIORITY_COVER_NAMES : list string :=
  name ← ["cover"; "folder"]; ext ← COVER_SUFFIX; [name +:+ ext].

(** One of the two [for x in ....iterdir()] loops of [determine_cover]:
    [inl x] when the loop returns [x.resolve()], else [inr pics]. *)
Fixpoint scan_covers (entries : list Path) (pics : list Path)
  : Path + list Path :=
  match entries with
  | [] => inr pics
  | x :: entries' =>
      if is_file fs x then
        if bool_decide (lower (name x) ∈ PRIORITY_COVER_NAMES)
        then inl (resolve fs x)
        else if bool_decide (lower (suffix x) ∈ COVER_SUFFIX)
        then scan_covers entries' (pics ++ [x])
        else scan_covers entries' pics
      else scan_covers entries' pics
  end.

Definition determine_cover (rootdir : option Path) (cue_path : Path)
  : result (option Path) :=
  match cover FLAGS with
  | Some "" => Ok None
  | Some cover =>
      match rootdir ≫= (fun rootdir => file_at (rootdir // cover)) with
      | Some p => Ok (Some p)
      | None =>
      match file_at (of_str cover) with
      | Some p => Ok (Some p)
      | None =>
      match file_at (parent cue_path // cover) with
      | Some p => Ok (Some p)
      | None => raise_str "Invalid --cover file."
      end
      end
      end
  | None =>
      scanned ←
        match rootdir with
        | Some rootdir =>
            entries ← iterdir fs rootdir; Ok (scan_covers entries [])
        | None => Ok (inr [])
        end;
      match scanned with
      | inl p => Ok (Some p)
      | inr pics =>
          scanned ←
            (if (length pics =? 0)%nat
             then entries ← iterdir fs (parent cue_path);
                  Ok (scan_covers entries pics)
             else Ok (inr pics));
          match scanned with
          | inl p => Ok (Some p)
          | inr pics =>
              let pics :=
                if (1 <? length pics)%nat
                then natsorted (fun x => lower (stem x)) pics
                else pics in
              match pics with
              | [] => Ok None
              | p :: _ => Ok (Some (resolve fs p))
              end
          end
      end
  end.

End Resolve.
End Resolve.

(** ** More exceptions

    The exceptions of the functions below: those above, the [IndexError] of
    an index out of range and the [EOFError] of [input()]. *)

Inductive py_exn : Type :=
  | Exn (e : exn)
  | IndexError
  | EOFError.

Inductive outcome (A : Type) : Type :=
  | Done (a : A)
  | Fail (e : py_exn).
Arguments Done {A} a.
Arguments Fail {A} e.

#[global] Instance outcome_ret : MRet outcome := fun _ a => Done a.
#[global] Instance outcome_bind : MBind outcome := fun _ _ k r =>
  match r with
  | Done a => k a
  | Fail e => Fail e
  end.

(** ** fdkaac_cmd *)

Module Cmd.
Import Str.

(** [s.replace(a, b)] for texts [a] and [b] of one character. *)
Fixpoint replace (a b : ascii) (s : string) : string :=
  match s with
  | "" => ""
  | String c s' => String (if Ascii.eqb c a then b else c) (replace a b s')
  end.

(** [str(n)] for an [int]. *)
Definition str (n : Z) : string := NilZero.string_of_int (Z.to_int n).

(** [s.zfill(width)]: zeros on the left up to the width, after the sign when
    the text starts with one. *)
Definition zfill (width : nat) (s : string) : string :=
  let fill := String.concat "" (repeat "0" (width - String.length s)) in
  match s with
  | String c s' =>
      if Ascii.eqb c "+" || Ascii.eqb c "-" then String c (fill +:+ s')
      else fill +:+ s
  | "" => fill
  end.

(** [l[i]] for a list: a negative index counts from the end. *)
Definition getitem {A} (l : list A) (i : Z) : outcome A :=
  let n := Z.of_nat (length l) in
  let j := if (i <? 0)%Z then (i + n)%Z else i in
  if (j <? 0)%Z then Fail IndexError
  else match l !! Z.to_nat j with
       | Some x => Done x
       | None => Fail IndexError
       end.

(** [d[key]] for a dictionary. *)
Definition lookup_key {V} (d : gmap string V) (key : string) : outcome V :=
  match d !! key with
  | Some v => Done v
  | None => Fail (Exn (KeyError key))
  end.

(** [cue_dict["TRACK_LIST"][track_index - 1]], as a dictionary.  Under this
    key [parse_cue] puts a list; on a text the index gives a character, and
    the first [track_dict[...]] is then a [TypeError]. *)
Definition track_at (cue_dict : gmap string value) (track_index : Z)
  : outcome (gmap string string) :=
  tl ← lookup_key cue_dict "TRACK_LIST";
  match tl with
  | VList l => getitem l (track_index - 1)
  | VStr s =>
      _ ← getitem (String.list_ascii_of_string s) (track_index - 1);
      Fail (Exn (TypeError "string indices must be integers, not 'str'"))
  end.

(** [len(cue_dict["TRACK_LIST"])] *)
Definition track_count (cue_dict : gmap string value) : outcome nat :=
  tl ← lookup_key cue_dict "TRACK_LIST";
  match tl with
  | VList l => Done (length l)
  | VStr s => Done (String.length s)
  end.

(** [if fname[-1] == '.': fname = fname[:-1]] *)
Definition drop_final_dot (fname : string) : outcome string :=
  match last fname with
  | None => Fail IndexError
  | Some c => Done (if Ascii.eqb c "." then init fname else fname)
  end.

(** ["{}.{}".format(str(track_index).zfill(2), title.replace('/', '-'))] *)
Definition fname_stem (track_index : Z) (title : string) : string :=
  zfill 2 (str track_index) +:+ "." +:+ replace "/" "-" title.

Definition fdkaac_cmd (cue_dict : gmap string value) (track_index : Z)
  : outcome (list value) :=
  track_dict ← track_at cue_dict track_index;
  title_raw ← lookup_key track_dict "TITLE_RAW";
  let fname_stem_in := fname_stem track_index title_raw in
  title ← lookup_key track_dict "TITLE";
  let fname_stem_out := fname_stem track_index title in
  fname_stem_in ← drop_final_dot fname_stem_in;
  fname_stem_out ← drop_final_dot fname_stem_out;
  let ret :=
    VStr <$> ["fdkaac"; "--bitrate"; "192k"; "--gapless-mode"; "1";
              "--moov-before-mdat"; "-o"; fname_stem_out +:+ ".m4a"] in
  title ← lookup_key track_dict "TITLE";
  let ret := ret ++ [VStr "--title"; VStr title] in
  performer ← lookup_key track_dict "PERFORMER";
  let ret := ret ++ [VStr "--artist"; VStr performer] in
  album ← lookup_key cue_dict "TITLE";
  let ret := ret ++ [VStr "--album"; album] in
  ret ←
    (if decide (is_Some (cue_dict !! "REM DATE")) then
       date ← lookup_key cue_dict "REM DATE";
       Done (ret ++ [VStr "--date"; date])
     else Done ret);
  ret ←
    (if decide (is_Some (cue_dict !! "REM GENRE")) then
       genre ← lookup_key cue_dict "REM GENRE";
       Done (ret ++ [VStr "--genre"; genre])
     else Done ret);
  album_artist ← lookup_key cue_dict "PERFORMER";
  let ret := ret ++ [VStr "--album-artist"; album_artist] in
  n ← track_count cue_dict;
  let ret :=
    ret ++ [VStr "--track";
            VStr (str track_index +:+ "/" +:+ str (Z.of_nat n))] in
  Done (ret ++ [VStr ("wav/" +:+ fname_stem_in +:+ ".wav")]).

End Cmd.

(** ** query_yes_no

    The console is what is left to read of the standard input, line by
    line, and what was written to the standard output, last first. *)

Record console : Type := {
  stdin : list string;
  stdout : list string;
}.

Module Ask.
Import Str.

Definition valid : gmap string bool :=
  <["yes" := true]> (<["y" := true]> (<["ye" := true]>
    (<["no" := false]> (<["n" := false]> ∅)))).

(** The text written after an answer that is not understood. *)
Definition reminder : string :=
  "Please respond with 'yes' or 'no' (or 'y' or 'n')." +:+ String nl "".

(** The loop [while True: ...], one turn for each line read; [input()] at
    the end of the input is an [EOFError]. *)
Fixpoint ask (question prompt : string) (default : option string)
  (lines : list string) (out : list string) : outcome bool * console :=
  let out := (question +:+ prompt) :: out in
  match lines with
  | [] => (Fail EOFError, {| stdin := []; stdout := out |})
  | line :: lines' =>
      let choice := lower line in
      let con := {| stdin := lines'; stdout := out |} in
      match default with
      | Some d =>
          if String.eqb choice "" then (Cmd.lookup_key valid d, con)
          else match valid !! choice with
               | Some b => (Done b, con)
               | None =>
                   ask question prompt default lines' (reminder :: out)
               end
      | None =>
          match valid !! choice with
          | Some b => (Done b, con)
          | None =>
              ask question prompt default lines' (reminder :: out)
          end
      end
  end.

(** The text after the question, chosen from the default answer. *)
Definition prompt (default : option string) : outcome string :=
  match default with
  | None => Done " [y/n] "
  | Some d =>
      if String.eqb d "yes" then Done " [Y/n] "
      else if String.eqb d "no" then Done " [y/N] "
      else Fail (Exn ValueError)
  end.

Definition query_yes_no (question : string) (default : option string)
  (con : console) : outcome bool * console :=
  match prompt default with
  | Fail e => (Fail e, con)
  | Done prompt => ask question prompt default (stdin con) (stdout con)
  end.

End Ask.

(** * The vocabulary of the statements *)

Import Str Re Cue PathLib Resolve.

(** ** Lines and directives *)

(** The shapes of a line that matches its pattern. *)
Inductive shape (line : string) : string → string → Prop :=
  | shape_rem name v : shape line ("REM " +:+ name) v
  | shape_file v : take 5 line = "FILE " → shape line "FILE" v
  | shape_track v :
      take 6 line = "TRACK " → all is_digit v = true → shape line "TRACK" v
  | shape_index v : shape line "INDEX" v
  | shape_generic k v :
      all is_upper k = true → k ≠ "FILE" → k ≠ "TRACK" → k ≠ "INDEX" →
      p_generic line = Some (k, v) → shape line k v.

(** The line is a [TRACK] directive. *)
Definition is_track (line : string) : Prop :=
  ∃ m2, re_match line = Some ("TRACK", m2).

(** The line is a [TITLE] directive whose value is stored: it is not empty
    once unquoted. *)
Definition stores_title (line : string) : Prop :=
  ∃ m2, re_match line = Some ("TITLE", m2) ∧ unquote m2 true ≠ "".

(** A line of the sheet is a [TRACK] directive. *)
Definition track_line (l : string) : bool :=
  match re_match (strip l) with
  | Some (k, _) => String.eqb k "TRACK"
  | None => false
  end.

(** A line of the sheet is a [TITLE] directive; with [with_value], one
    whose value is not empty once unquoted. *)
Definition title_line (with_value : bool) (l : string) : bool :=
  match re_match (strip l) with
  | Some (k, m2) =>
      String.eqb k "TITLE"
      && (negb with_value || negb (is_empty (unquote m2 true)))
  | None => false
  end.

(** The number that a line of the sheet declares when it is a [TRACK]
    directive: the one that the digits of its value denote. *)
Definition declared_number (line : string) : option Z :=
  match re_match (strip line) with
  | Some (k, m2) =>
      if String.eqb k "TRACK" then decimal (unquote m2 true) else None
  | None => None
  end.

(** The numbers declared by the [TRACK] directives of a sheet, in order. *)
Definition declared_numbers (cue_content : string) : list Z :=
  omap declared_number (split nl cue_content).

(** The numbers 1 to [n], as [TRACK] lines declare them. *)
Definition one_to (n : nat) : list Z := Z.of_nat <$> seq 1 n.

(** No line of the sheet is a [FILE] directive. *)
Definition no_file_directive (cue_content : string) : Prop :=
  ∀ l m2, l ∈ split nl cue_content → re_match (strip l) ≠ Some ("FILE", m2).

(** Every track block of the lines, a block being a [TRACK] directive and
    the lines up to the next one, has a line that satisfies [p].  [opened]
    tells that the lines start inside a block, and [seen] that a line of
    this block that satisfies [p] came before them. *)
Fixpoint blocks_titled (p : string → bool) (opened seen : bool)
  (lines : list string) : bool :=
  match lines with
  | [] => negb opened || seen
  | l :: ls =>
      if track_line l
      then (negb opened || seen) && blocks_titled p true false ls
      else blocks_titled p opened (seen || p l) ls
  end.

(** ** States of the parser *)

(** What one directive does to the state, case by case. *)
Inductive step (flags : Flags) (st : state) (line : string) : state → Prop :=
  | step_skip k m2 :
      re_match line = Some (k, m2) → value_of flags st k m2 = "" →
      step flags st line st
  | step_index m2 :
      re_match line = Some ("INDEX", m2) → step flags st line st
  | step_track m2 :
      re_match line = Some ("TRACK", m2) →
      int m2 = Some (Z.of_nat (length (track_list st)) + 1)%Z →
      step flags st line (new_track st)
  | step_title m2 :
      re_match line = Some ("TITLE", m2) → unquote m2 true ≠ "" →
      step flags st line
        (setitem "TITLE_RAW" (unquote m2 false)
           (setitem "TITLE" (unquote m2 true) st))
  | step_set k m2 :
      re_match line = Some (k, m2) →
      k ≠ "INDEX" → k ≠ "TRACK" → k ≠ "TITLE" →
      value_of flags st k m2 ≠ "" →
      step flags st line (setitem k (value_of flags st k m2) st).

(** The shape of the store that the parser keeps: the disc dictionary, then
    the track dictionaries in the order of their creation; [track_list]
    lists the latter and [current_dict] is the last dictionary. *)
Definition wf (st : state) : Prop :=
  ∃ n, length (store st) = S n ∧ track_list st = seq 1 n
       ∧ current_dict st = n.

(** No dictionary of the store has the key [k]. *)
Definition no_key (k : string) (st : state) : Prop :=
  ∀ r d, store st !! r = Some d → d !! k = None.

(** The dictionary of a reference has a title. *)
Definition titled (st : state) (r : nat) : Prop :=
  is_Some (deref st r !! "TITLE").

(** The state in which a step ends, for a step that is known to end. *)
Definition state_after (r : result state) : state :=
  match r with Ok st => st | Raise _ => initial end.

(** The result of a parse that is known to succeed. *)
Definition parsed (r : result (gmap string value)) : gmap string value :=
  match r with Ok d => d | Raise _ => ∅ end.

(** ** Sheets *)

(** The flags of a run without options. *)
Definition no_flags : Flags :=
  {| cue := None; wav := None; cover := None;
     disc_performer_override := None |}.

(** The lines of a sheet, joined by line feeds. *)
Fixpoint sheet (lines : list string) : string :=
  match lines with
  | [] => ""
  | [l] => l
  | l :: ls => l +:+ String nl (sheet ls)
  end.

(** A sheet that declares the tracks 1, 2 and 3. *)
Definition sheet_123 : string :=
  sheet ["TRACK 01 AUDIO"; "  TITLE One"; "TRACK 02 AUDIO"; "  TITLE Two";
         "TRACK 03 AUDIO"; "  TITLE Three"].

(** A sheet that declares the tracks 1 and 3. *)
Definition sheet_13 : string :=
  sheet ["TRACK 01 AUDIO"; "  TITLE One"; "TRACK 03 AUDIO"; "  TITLE Three"].

(** The sheet of the example: a disc performer A, a first track that sets its
    performer to B, and a second track that sets none. *)
Definition sheet_performers : string :=
  sheet ["PERFORMER " +:+ quoted "A";
         "TRACK 01 AUDIO"; "TITLE One"; "PERFORMER " +:+ quoted "B";
         "TRACK 02 AUDIO"; "TITLE Two"].

(** The titles of the tracks of a parsed sheet, in the order of the list. *)
Definition track_titles (r : result (gmap string value))
  : result (list (option string)) :=
  d ← r;
  match d !! "TRACK_LIST" with
  | Some (VList ts) => Ok ((fun t : gmap string string => t !! "TITLE") <$> ts)
  | _ => Raise (KeyError "TRACK_LIST")
  end.

(** The performers of the disc and of the tracks of a parsed sheet. *)
Definition performers (r : result (gmap string value))
  : result (option value * list (option string)) :=
  d ← r;
  match d !! "TRACK_LIST" with
  | Some (VList ts) =>
      Ok (d !! "PERFORMER",
          (fun t : gmap string string => t !! "PERFORMER") <$> ts)
  | _ => Raise (KeyError "TRACK_LIST")
  end.

(** A parsed sheet with an album title, a performer and a track whose
    title has a slash and ends with a dot. *)
Definition sheet_slash : string :=
  sheet ["PERFORMER Someone"; "TITLE Album"; "TRACK 01 AUDIO";
         "TITLE " +:+ quoted "Either/Or."].

(** A parsed sheet with two tracks of the same title. *)
Definition sheet_same_titles : string :=
  sheet ["PERFORMER Someone"; "TITLE Album"; "TRACK 01 AUDIO";
         "TITLE Intro"; "TRACK 02 AUDIO"; "TITLE Intro"].

(** ** Directories *)

(** A directory. *)
Definition album : Path := {| is_abs := true; parts := ["album"] |}.

(** The file system in which [album] holds the files of the given names,
    listed in this order, and nothing else exists. *)
Definition fs_of (names : list string) : FileSystem :=
  {| is_file p := bool_decide (p ∈ child album <$> names);
     listdir p := if decide (p = album) then Some names else None;
     resolve p := p |}.

(** Another directory. *)
Definition discs : Path := {| is_abs := true; parts := ["discs"] |}.

(** The file system in which [album] holds the files of the first names
    and [discs] those of the second, and nothing else exists. *)
Definition fs_two (names names' : list string) : FileSystem :=
  {| is_file p :=
       bool_decide (p ∈ (child album <$> names) ++ (child discs <$> names'));
     listdir p :=
       if decide (p = album) then Some names
       else if decide (p = discs) then Some names' else None;
     resolve p := p |}.

(** An entry of a directory is a file with the suffix of a sheet. *)
Definition is_sheet (fs : FileSystem) (x : Path) : Prop :=
  is_file fs x = true ∧ lower (suffix x) = ".cue".

(** An entry of a directory is a file with one of the priority names. *)
Definition is_priority_cover (fs : FileSystem) (x : Path) : Prop :=
  is_file fs x = true ∧ lower (name x) ∈ PRIORITY_COVER_NAMES.

(** An entry of a directory is a file with the suffix of an image. *)
Definition is_picture (fs : FileSystem) (x : Path) : Prop :=
  is_file fs x = true ∧ lower (suffix x) ∈ COVER_SUFFIX.

(** The scan of the root directory finds no cover: there is no root
    directory, or it lists no file with a priority name or the suffix of an
    image. *)
Definition no_cover_in (fs : FileSystem) (rootdir : option Path) : Prop :=
  match rootdir with
  | None => True
  | Some r =>
      ∃ entries, iterdir fs r = Ok entries
        ∧ ∀ y, y ∈ entries → ¬ is_priority_cover fs y ∧ ¬ is_picture fs y
  end.

(** Two file systems with the same files, which resolve paths alike: they
    may differ in what the directories list. *)
Definition same_files (fs fs' : FileSystem) : Prop :=
  (∀ p, is_file fs p = is_file fs' p) ∧ (∀ p, resolve fs p = resolve fs' p).

(** The path is what the system resolves a file that exists to. *)
Definition resolved_file (fs : FileSystem) (p : Path) : Prop :=
  ∃ f, is_file fs f = true ∧ p = resolve fs f.

(** The directories that the resolvers look at, in their order: the root
    directory, when there is one, and the directory of the sheet. *)
Definition search_dirs (rootdir : option Path) (cue_path : Path)
  : list Path :=
  from_option (fun r => [r]) [] rootdir ++ [parent cue_path].

(** The file system of [fs_of] with other listings. *)
Definition relisted (fs : FileSystem) (names : list string) : FileSystem :=
  {| is_file := is_file fs; listdir := fun _ => Some names;
     resolve := resolve fs |}.

(** The flags of a run with the given sheet, audio and cover arguments. *)
Definition file_flags (a : string) : Flags :=
  {| cue := Some a; wav := Some a; cover := Some a;
     disc_performer_override := None |}.

(** The file system [fs] with other listings outside the directory
    [album]. *)
Definition relisted_elsewhere (fs : FileSystem) (names : list string)
  : FileSystem :=
  {| is_file := is_file fs;
     listdir p := if decide (p = album) then listdir fs p else Some names;
     resolve := resolve fs |}.

(** A sheet that declares the file [b.flac], and one that declares
    [c.flac]. *)
Definition sheet_file : string :=
  sheet ["FILE " +:+ quoted "b.flac" +:+ " WAVE"; "TRACK 01 AUDIO";
         "TITLE One"].

Definition sheet_file_missing : string :=
  sheet ["FILE " +:+ quoted "c.flac" +:+ " WAVE"; "TRACK 01 AUDIO";
         "TITLE One"].

(** ** Invariants of the store *)

(** Every value of every dictionary of the store is a text that is not
    empty. *)
Definition values_nonempty (st : state) : Prop :=
  ∀ r d k v, store st !! r = Some d → d !! k = Some v → v ≠ "".

(** In every dictionary of the store a ["TITLE"] comes with a
    ["TITLE_RAW"], of which it is the trimmed form. *)
Definition titles_paired (st : state) : Prop :=
  ∀ r d t, store st !! r = Some d → d !! "TITLE" = Some t →
    ∃ raw, d !! "TITLE_RAW" = Some raw ∧ t = strip raw.

(** Every track dictionary has the keys of the disc dictionary, but for
    ["TITLE"]. *)
Definition tracks_inherit (st : state) : Prop :=
  ∀ r k, r ∈ track_list st → k ≠ "TITLE" →
    is_Some (deref st disc_dict !! k) → is_Some (deref st r !! k).

(** The lines that the loop acts on: those of the text, trimmed, without
    the empty ones. *)
Definition directives (cue_content : string) : list string :=
  filter (fun l => l ≠ "") (strip <$> split nl cue_content).

(** The performer of the disc dictionary, when there is one, is [o]. *)
Definition disc_performer_is (o : string) (st : state) : Prop :=
  ∀ v, deref st disc_dict !! "PERFORMER" = Some v → v = o.

(** The flags of a run with a performer override only. *)
Definition override_flags (o : string) : Flags :=
  {| cue := None; wav := None; cover := None;
     disc_performer_override := Some o |}.

(** ** File names *)

(** The text has no slash. *)
Definition no_slash (s : string) : Prop :=
  all (fun c => negb (Ascii.eqb c "/")) s = true.

(** ** Answers *)

(** The line, in any case of its letters, is one of the words for yes,
    respectively for no. *)
Definition says_yes (line : string) : bool :=
  bool_decide (lower line ∈ ["yes"; "y"; "ye"]).

Definition says_no (line : string) : bool :=
  bool_decide (lower line ∈ ["no"; "n"]).

(** The line is an answer: a word for yes or no, or the empty line when
    there is a default answer. *)
Definition understood (default : option string) (line : string) : bool :=
  says_yes line || says_no line
  || (bool_decide (is_Some default) && String.eqb line "").

(** The answer that an understood line gives. *)
Definition meaning (default : option string) (line : string) : bool :=
  if String.eqb line "" then bool_decide (default = Some "yes")
  else says_yes line.

(** What is on the output, last first, once the question was asked after
    [n] lines that are no answer. *)
Definition asked (question prompt : string) (n : nat) (out : list string)
  : list string :=
  (question +:+ prompt)
    :: mjoin (replicate n [Ask.reminder; question +:+ prompt]) ++ out.

(** * Properties *)

(** ** Texts *)

Module StrFacts.
Import Str.

Lemma is_empty_true s : is_empty s = true ↔ s = "".
Proof. by destruct s. Qed.

Lemma is_empty_false s : is_empty s = false ↔ s ≠ "".
Proof. by destruct s. Qed.

Lemma app_nil s : "" +:+ s = s.
Proof. done. Qed.

Lemma app_cons c s t : String c s +:+ t = String c (s +:+ t).
Proof. done. Qed.

Lemma app_assoc s t u : (s +:+ t) +:+ u = s +:+ (t +:+ u).
Proof. induction s as [|c s IH]; [done | by rewrite !app_cons, IH]. Qed.

Lemma last_snoc s c : last (s +:+ String c "") = Some c.
Proof.
  induction s as [|a s IH]; [done |].
  rewrite app_cons. simpl. rewrite IH. by destruct s.
Qed.

Lemma init_snoc s c : init (s +:+ String c "") = s.
Proof.
  induction s as [|a s IH]; [done |].
  rewrite app_cons. simpl. rewrite IH. by destruct s.
Qed.

Lemma length_snoc s c : String.length (s +:+ String c "") = S (String.length s).
Proof. induction s as [|a s IH]; [done | by rewrite app_cons; simpl; rewrite IH]. Qed.

Lemma first_quoted s : first (quoted s) = Some dq.
Proof. done. Qed.

Lemma last_quoted s : last (quoted s) = Some dq.
Proof.
  unfold quoted. rewrite <-(app_nil (String dq (_ +:+ _))), <-app_cons.
  by rewrite <-app_assoc, last_snoc.
Qed.

Lemma length_quoted s : (2 <=? String.length (quoted s))%nat = true.
Proof. unfold quoted. simpl. by rewrite length_snoc. Qed.

Lemma slice_quoted s : slice_1_m1 (quoted s) = s.
Proof. unfold quoted, slice_1_m1. simpl. apply init_snoc. Qed.

(** A class that holds no whitespace is left alone by [strip]. *)
Lemma lstrip_id s : (if first s is Some c then is_space c = false else True) →
  lstrip s = s.
Proof. destruct s as [|c s]; simpl; [done |]. by intros ->. Qed.

Lemma rstrip_id s : all (fun c => negb (is_space c)) s = true → rstrip s = s.
Proof.
  induction s as [|c s IH]; simpl; [done |].
  intros [Hc Hs]%andb_prop. rewrite (IH Hs).
  apply negb_true_iff in Hc. by rewrite Hc.
Qed.

Lemma all_impl (p q : ascii → bool) s :
  (∀ c, p c = true → q c = true) → all p s = true → all q s = true.
Proof.
  intros Hpq. induction s as [|c s IH]; simpl; [done |].
  intros [Hc Hs]%andb_prop. by rewrite (Hpq _ Hc), (IH Hs).
Qed.

Lemma strip_id s :
  all (fun c => negb (is_space c)) s = true → strip s = s.
Proof.
  intros H. unfold strip. rewrite lstrip_id; [by apply rstrip_id |].
  destruct s as [|c s]; simpl in *; [done |].
  apply andb_prop in H as [H _]. by apply negb_true_iff.
Qed.

Lemma digit_not_space c : is_digit c = true → negb (is_space c) = true.
Proof. by destruct c as [[] [] [] [] [] [] [] []]. Qed.

Lemma digit_not_dq c : is_digit c = true → c ≠ dq.
Proof. by destruct c as [[] [] [] [] [] [] [] []]. Qed.

Lemma int_acc_digits s acc : all is_digit s = true → is_Some (int_acc acc s).
Proof.
  revert acc. induction s as [|c s IH]; simpl; intros acc; [done |].
  intros [Hc Hs]%andb_prop. rewrite Hc. by apply IH.
Qed.

Lemma decimal_digits s :
  s ≠ "" → all is_digit s = true → is_Some (decimal s).
Proof.
  intros Hne Hs. unfold decimal. apply is_empty_false in Hne as ->.
  by apply int_acc_digits.
Qed.

Lemma int_Some s n :
  int s = Some n ↔
  decimal s = Some n ∧ String.length s ≤ int_max_str_digits.
Proof.
  unfold int. destruct (Nat.ltb_spec int_max_str_digits (String.length s)).
  - split; [done | intros [_ ?]; lia].
  - split; [intros ?; split; [done | lia] | by intros [? _]].
Qed.

End StrFacts.

(** ** unquote *)

Module UnquoteFacts.
Import Str StrFacts Cue.

(** A value between matching quotes loses them; the trim mode trims what
    was between them, the other mode keeps it. *)
Lemma unquote_quoted s inner (b : bool) :
  strip s = quoted inner →
  unquote s b = if b then strip inner else inner.
Proof.
  intros Hs. unfold unquote. rewrite Hs.
  rewrite length_quoted, first_quoted, last_quoted, slice_quoted.
  by rewrite !bool_decide_eq_true_2.
Qed.

(** Without a closing quote nothing is removed but, in trim mode, the
    whitespace around the value. *)
Lemma unquote_unclosed s (b : bool) :
  last (strip s) ≠ Some dq →
  unquote s b = if b then strip s else s.
Proof.
  intros Hl. unfold unquote.
  rewrite (bool_decide_eq_false_2 (last _ = _)) by done.
  by rewrite andb_false_r.
Qed.

Lemma unquote_digits s (b : bool) : all is_digit s = true → unquote s b = s.
Proof.
  intros Hs.
  assert (strip s = s) as Hst.
  { apply strip_id. revert Hs. apply all_impl, digit_not_space. }
  unfold unquote. rewrite Hst.
  destruct s as [|c s]; [by destruct b |].
  simpl in Hs. apply andb_prop in Hs as [Hc _].
  rewrite (bool_decide_eq_false_2 (first _ = _)).
  - rewrite andb_false_r. by destruct b.
  - simpl. intros [= ->]. by apply digit_not_dq in Hc.
Qed.

End UnquoteFacts.

(** ** The patterns *)

Module ReFacts.
Import Str StrFacts Re.

Section Matchers.
Context {R : Type}.
Implicit Types (k : string → option R) (s t v : string).

(** What [X+] matched is a non-empty run of the class at the start of the
    text, and the rest of the pattern matched what follows it. *)
Lemma plus_Some cls k s v r :
  plus cls k s = Some (v, r) →
  v ≠ "" ∧ all cls v = true ∧ ∃ rest, s = v +:+ rest ∧ k rest = Some r.
Proof.
  revert v. induction s as [|c s IH]; intros v; simpl; [done |].
  destruct (cls c) eqn:Hc; [| done].
  destruct (plus cls k s) as [[v' r']|] eqn:Hp.
  - intros [= <- <-]. destruct (IH _ eq_refl) as (_ & Hv & rest & -> & Hk).
    split; [done |]. split; [by simpl; rewrite Hc |]. by exists rest.
  - destruct (k s) as [r'|] eqn:Hk; [| done].
    intros [= <- <-]. split; [done |]. split; [by simpl; rewrite Hc |].
    by exists s.
Qed.

Lemma lit_Some t k s r :
  lit t k s = Some r → ∃ rest, s = t +:+ rest ∧ k rest = Some r.
Proof.
  revert s. induction t as [|c t IH]; intros s; simpl.
  - intros Hk. by exists s.
  - destruct s as [|c' s]; [done |].
    destruct (Ascii.eqb_spec c c') as [<- |]; [| done].
    intros (rest & -> & Hk)%IH. by exists rest.
Qed.

End Matchers.

(** [(.+)$] on a text without line feed takes all of it. *)
Lemma plus_dot_eol v :
  v ≠ "" → all is_dot v = true → plus is_dot eol v = Some (v, ()).
Proof.
  induction v as [|c v IH]; [done |]; intros _. simpl.
  intros [-> Hv]%andb_prop. destruct v as [|c' v]; [done |].
  by rewrite IH.
Qed.

(** The tail of the two patterns that end in [ (.+)$]. *)
Lemma value_Some s v :
  lit " " (fun s2 => '(v, _) ← plus is_dot eol s2; Some v) s = Some v →
  v ≠ "" ∧ ∃ rest, s = String " " rest.
Proof.
  intros (rest & -> & Hv)%lit_Some. split; [| by exists rest].
  destruct (plus is_dot eol rest) as [[v' []]|] eqn:Hp; [| done].
  simpl in Hv. injection Hv as ->. by apply plus_Some in Hp as [? _].
Qed.

Lemma p_generic_Some line k v :
  p_generic line = Some (k, v) →
  k ≠ "" ∧ all is_upper k = true ∧ v ≠ "" ∧
  ∃ rest, line = k +:+ String " " rest.
Proof.
  intros (Hk & Hup & rest & -> & Hv)%plus_Some.
  apply value_Some in Hv as (Hv & rest' & ->). eauto.
Qed.

Lemma p_rem_Some line k v :
  p_rem line = Some (k, v) → v ≠ "" ∧ ∃ name, k = "REM " +:+ name.
Proof.
  intros (rest & -> & H)%lit_Some.
  destruct (plus _ _ rest) as [[name v']|] eqn:Hp; [| done].
  simpl in H. injection H as <- <-.
  apply plus_Some in Hp as (_ & _ & rest' & _ & Hv).
  apply value_Some in Hv as [Hv _]. eauto.
Qed.

Lemma p_file_Some line k v : p_file line = Some (k, v) → v ≠ "" ∧ k = "FILE".
Proof.
  intros (rest & -> & H)%lit_Some.
  destruct (plus _ _ rest) as [[v' r]|] eqn:Hp; [| done].
  simpl in H. injection H as <- <-.
  by apply plus_Some in Hp as (? & _).
Qed.

Lemma p_track_Some line k v :
  p_track line = Some (k, v) → v ≠ "" ∧ all is_digit v = true ∧ k = "TRACK".
Proof.
  intros (rest & -> & H)%lit_Some.
  destruct (plus _ _ rest) as [[v' r]|] eqn:Hp; [| done].
  simpl in H. injection H as <- <-.
  by apply plus_Some in Hp as (? & ? & _).
Qed.

Lemma p_index_Some line k v :
  p_index line = Some (k, v) → v ≠ "" ∧ k = "INDEX".
Proof.
  intros (rest & -> & H)%lit_Some.
  destruct (plus _ _ rest) as [[v' r]|] eqn:Hp; [| done].
  simpl in H. injection H as <- <-.
  by apply plus_Some in Hp as (? & _).
Qed.

End ReFacts.

(** ** The classification of a line *)

Module LineFacts.
Import Str StrFacts Re ReFacts Cue.

Lemma re_match_shape line k v :
  re_match line = Some (k, v) → v ≠ "" ∧ shape line k v.
Proof.
  unfold re_match, pattern.
  destruct (String.eqb_spec (take 4 line) "REM ") as [H4|H4].
  { intros [Hv [name ->]]%p_rem_Some. split; [done | constructor]. }
  destruct (String.eqb_spec (take 5 line) "FILE ") as [H5|H5].
  { intros [Hv ->]%p_file_Some. split; [done | by constructor]. }
  destruct (String.eqb_spec (take 6 line) "TRACK ") as [H6|H6].
  { intros (Hv & Hd & ->)%p_track_Some. split; [done | by constructor]. }
  destruct (String.eqb_spec (take 6 line) "INDEX ") as [H6'|H6'].
  { intros [Hv ->]%p_index_Some. split; [done | constructor]. }
  intros Hm. destruct (p_generic_Some _ _ _ Hm) as (Hk & Hup & Hv & rest & ->).
  split; [done |].
  constructor; [done | | | | done]; intros ->.
  - by apply H5.
  - by apply H6.
  - by apply H6'.
Qed.

(** No line has the key ["TRACK_LIST"] or ["TITLE_RAW"]: a key is a run of
    capital letters, or starts with ["REM "]. *)
Lemma shape_no_underscore line k v :
  shape line k v → k ≠ "TRACK_LIST" ∧ k ≠ "TITLE_RAW".
Proof.
  destruct 1 as [name v| | | |k v Hup _ _ _ _]; try done.
  split; intros ->; done.
Qed.

Lemma shape_track_inv line v :
  shape line "TRACK" v → take 6 line = "TRACK " ∧ all is_digit v = true.
Proof. by inversion 1. Qed.

(** A line made of [TITLE], a space and a value without line feed is a
    [TITLE] directive with this value. *)
Lemma re_match_title v :
  v ≠ "" → all is_dot v = true → re_match ("TITLE " +:+ v) = Some ("TITLE", v).
Proof.
  intros Hne Hv. unfold re_match, pattern.
  rewrite !app_cons, app_nil. simpl. unfold p_generic. simpl.
  by rewrite plus_dot_eol.
Qed.

End LineFacts.

(** ** The loop of parse_cue *)

Module ParseFacts.
Import Str StrFacts Re ReFacts Cue UnquoteFacts LineFacts.

Lemma value_of_other flags st k m2 :
  k ≠ "PERFORMER" → value_of flags st k m2 = unquote m2 true.
Proof.
  intros Hk. unfold value_of. destruct (disc_performer_override flags); [| done].
  by destruct (String.eqb_spec k "PERFORMER").
Qed.

Lemma value_of_track flags st line m2 :
  re_match line = Some ("TRACK", m2) →
  value_of flags st "TRACK" m2 = m2 ∧ m2 ≠ "" ∧ all is_digit m2 = true.
Proof.
  intros [Hne [_ Hd]%shape_track_inv]%re_match_shape.
  by rewrite value_of_other, unquote_digits.
Qed.

Lemma directive_Ok flags st line st' :
  directive flags st line = Ok st' ↔ step flags st line st'.
Proof.
  unfold directive. split.
  - destruct (re_match line) as [[k m2]|] eqn:Hm; [| done].
    destruct (is_empty _) eqn:He.
    { intros [= <-]. apply is_empty_true in He. by eapply step_skip. }
    apply is_empty_false in He.
    destruct (String.eqb_spec k "INDEX") as [-> | Hi].
    { intros [= <-]. by eapply step_index. }
    destruct (String.eqb_spec k "TRACK") as [-> | Ht].
    { destruct (value_of_track flags st _ _ Hm) as [-> _].
      destruct (int m2) as [n|] eqn:Hn; [| done].
      destruct (Z.eqb_spec n (Z.of_nat (length (track_list st)) + 1));
        [| done].
      intros [= <-]. subst n. by eapply step_track. }
    destruct (String.eqb_spec k "TITLE") as [-> | Htt].
    { rewrite value_of_other in * by done. intros [= <-].
      by eapply step_title. }
    intros [= <-]. by eapply step_set.
  - destruct 1 as [k m2 Hm Hv|m2 Hm|m2 Hm Hn|m2 Hm Hv|k m2 Hm Hi Ht Htt Hv];
      rewrite Hm.
    + by rewrite Hv.
    + by destruct (is_empty _).
    + destruct (value_of_track flags st _ _ Hm) as (-> & Hne & _).
      apply is_empty_false in Hne as ->. simpl.
      by rewrite Hn, Z.eqb_refl.
    + rewrite value_of_other by done.
      apply is_empty_false in Hv as ->. done.
    + apply is_empty_false in Hv as ->.
      by destruct (String.eqb_spec k "INDEX"), (String.eqb_spec k "TRACK"),
        (String.eqb_spec k "TITLE").
Qed.

(** A [TRACK] line whose pattern matches either creates a track or fails
    on the number it declares; it is never skipped. *)
Lemma directive_track flags st line m2 :
  re_match line = Some ("TRACK", m2) →
  ∃ n, decimal m2 = Some n ∧
    directive flags st line =
      if (int_max_str_digits <? String.length m2)%nat then Raise ValueError
      else if (n =? Z.of_nat (length (track_list st)) + 1)%Z
      then Ok (new_track st) else Raise (AssertionError "").
Proof.
  intros Hm. destruct (value_of_track flags st _ _ Hm) as (Hv & Hne & Hd).
  destruct (decimal_digits _ Hne Hd) as [n Hn]. exists n. split; [done |].
  unfold directive. rewrite Hm, Hv.
  apply is_empty_false in Hne as ->.
  change (String.eqb "TRACK" "INDEX") with false.
  change (String.eqb "TRACK" "TRACK") with true. cbv iota.
  unfold int. rewrite Hn.
  by destruct (int_max_str_digits <? String.length m2)%nat.
Qed.

Lemma wf_initial : wf initial.
Proof. by exists 0. Qed.

Lemma wf_setitem k v st : wf st → wf (setitem k v st).
Proof.
  intros (n & Hl & Ht & Hc). exists n. simpl.
  by rewrite length_alter.
Qed.

Lemma wf_new_track st : wf st → wf (new_track st).
Proof.
  intros (n & Hl & Ht & Hc). exists (S n).
  unfold new_track; cbn [store track_list current_dict].
  rewrite length_app, Hl, Ht. split; [simpl; lia |]. split; [| done].
  by rewrite seq_S.
Qed.

Lemma wf_step flags st line st' : step flags st line st' → wf st → wf st'.
Proof.
  destruct 1; auto using wf_setitem, wf_new_track.
Qed.

Lemma body_Ok flags st line st' :
  body flags st line = Ok st' ↔
  (strip line = "" ∧ st' = st) ∨ (strip line ≠ "" ∧ step flags st (strip line) st').
Proof.
  unfold body. destruct (is_empty (strip line)) eqn:He.
  - apply is_empty_true in He. split.
    + intros [= <-]. by left.
    + by intros [[_ ->] | [? _]].
  - apply is_empty_false in He. rewrite directive_Ok. split.
    + by right.
    + by intros [[? _] | [_ ?]].
Qed.

Lemma wf_body flags st line st' : body flags st line = Ok st' → wf st → wf st'.
Proof.
  intros [[_ ->] | [_ Hs]]%body_Ok; [done |]. by eapply wf_step.
Qed.

Lemma loop_cons flags st line lines st' :
  loop flags st (line :: lines) = Ok st' ↔
  ∃ st1, body flags st line = Ok st1 ∧ loop flags st1 lines = Ok st'.
Proof.
  simpl. destruct (body flags st line) as [st1|e]; simpl.
  - split; [by exists st1 | by intros (? & [= <-] & ?)].
  - split; [done | by intros (? & ? & _)].
Qed.

Lemma wf_loop flags st lines st' : loop flags st lines = Ok st' → wf st → wf st'.
Proof.
  revert st. induction lines as [|l ls IH]; intros st.
  - by intros [= <-].
  - intros (st1 & Hb & Hl)%loop_cons Hwf. eauto using wf_body.
Qed.

End ParseFacts.

(** ** The dictionaries of the store *)

Module StoreFacts.
Import Str StrFacts Cue LineFacts ParseFacts.

Lemma wf_current st : wf st → current_dict st < length (store st).
Proof. intros (n & -> & _ & ->). lia. Qed.

Lemma deref_setitem_eq k v st r :
  wf st → r = current_dict st →
  deref (setitem k v st) r = <[k := v]> (deref st r).
Proof.
  intros Hc%wf_current ->. unfold deref, setitem; simpl.
  rewrite list_lookup_alter_eq.
  destruct (lookup_lt_is_Some_2 _ _ Hc) as [d ->]. done.
Qed.

Lemma deref_setitem_ne k v st r :
  r ≠ current_dict st → deref (setitem k v st) r = deref st r.
Proof.
  intros Hr. unfold deref, setitem; simpl.
  by rewrite list_lookup_alter_ne.
Qed.

Lemma deref_new_track_old st r :
  r < length (store st) → deref (new_track st) r = deref st r.
Proof.
  intros Hr. unfold deref, new_track; simpl. by rewrite lookup_app_l.
Qed.

Lemma deref_new_track_new st :
  deref (new_track st) (current_dict (new_track st))
  = delete "TITLE" (deref st disc_dict).
Proof.
  unfold deref at 1, new_track; simpl.
  by rewrite lookup_app_r, Nat.sub_diag.
Qed.

Lemma no_key_deref k st r : no_key k st → deref st r !! k = None.
Proof.
  intros Hk. unfold deref. destruct (store st !! r) as [d|] eqn:Hd; simpl.
  - by eapply Hk.
  - done.
Qed.

Lemma no_key_initial k : no_key k initial.
Proof. intros [|r] d; simpl; [by intros [= <-] | done]. Qed.

Lemma no_key_setitem k k' v st :
  k ≠ k' → no_key k st → no_key k (setitem k' v st).
Proof.
  intros Hne Hk r d. unfold setitem; simpl.
  destruct (decide (r = current_dict st)) as [-> | Hr].
  - rewrite list_lookup_alter_eq.
    destruct (store st !! current_dict st) as [d0|] eqn:Hd; [| done].
    intros [= <-]. rewrite lookup_insert_ne by done. by eapply Hk.
  - rewrite list_lookup_alter_ne by done. apply Hk.
Qed.

Lemma no_key_new_track k st : no_key k st → no_key k (new_track st).
Proof.
  intros Hk r d. unfold new_track; simpl.
  intros [Hd | [_ Hd]]%lookup_app_Some; [by eapply Hk |].
  apply list_lookup_singleton_Some in Hd as [_ <-].
  destruct (decide (k = "TITLE")) as [-> | Hne].
  - apply lookup_delete_eq.
  - rewrite lookup_delete_ne by done. by apply no_key_deref.
Qed.

(** A key that no line of the sheet has, and that is not ["TITLE_RAW"],
    enters no dictionary. *)
Lemma no_key_step flags st line st' k :
  step flags st line st' →
  (∀ m2, re_match line ≠ Some (k, m2)) → k ≠ "TITLE_RAW" →
  no_key k st → no_key k st'.
Proof.
  intros Hs Hl Hraw Hk.
  destruct Hs as [| | |m2 Hm _|k' m2 Hm _ _ _ _];
    auto using no_key_new_track.
  - apply no_key_setitem; [done |]. apply no_key_setitem; [| done].
    intros ->. by eapply Hl.
  - apply no_key_setitem; [| done]. intros ->. by eapply Hl.
Qed.

Lemma no_key_loop flags st lines st' k :
  loop flags st lines = Ok st' →
  (∀ l m2, l ∈ lines → re_match (strip l) ≠ Some (k, m2)) →
  k ≠ "TITLE_RAW" → no_key k st → no_key k st'.
Proof.
  revert st. induction lines as [|l ls IH]; intros st.
  - by intros [= <-].
  - intros (st1 & Hb & Hl)%loop_cons Hls Hraw Hk.
    apply (IH st1); [done | | done |].
    + intros l' m2 Hin. apply Hls. by right.
    + apply body_Ok in Hb as [[_ ->] | [_ Hs]]; [done |].
      eapply no_key_step; [done | | done..].
      intros m2. apply Hls. by left.
Qed.

End StoreFacts.

(** * The sheet parser *)

Import Str Cue.
Import StrFacts UnquoteFacts ReFacts LineFacts ParseFacts StoreFacts.

(** ** Quoting *)

(** The value [dq abc space] of the table in the source of [unquote]: it
    starts with a quote and does not end with one, and the trim mode does not
    return it as it is. *)
Lemma unquote_unclosed_not_verbatim :
  let s := String dq "abc " in
  first s = Some dq ∧ last s ≠ Some dq ∧ unquote s true = String dq "abc"
  ∧ unquote s true ≠ s.
Proof. by vm_compute. Qed.

(** C5, in the form that the code satisfies.  For every value whose trimmed
    form starts with a double quote and does not end with one, nothing is
    unquoted: the unquote-only mode returns the value as it is, and the trim
    mode returns the value without the whitespace around it, its opening quote
    kept; a value with no whitespace around it is returned as it is in both
    modes. *)
Theorem unquote_unclosed_quote (s : string) :
  first (strip s) = Some dq → last (strip s) ≠ Some dq →
  unquote s false = s ∧ unquote s true = strip s
  ∧ (strip s = s → ∀ b, unquote s b = s).
Proof.
  intros _ Hl. rewrite !unquote_unclosed by done.
  split; [done |]. split; [done |].
  intros Hs b. rewrite unquote_unclosed by done. by destruct b.
Qed.

Lemma unquote_unclosed_quote_witness :
  unquote (String dq "abc ") false = String dq "abc "
  ∧ unquote (String dq "abc ") true = String dq "abc".
Proof.
  destruct (unquote_unclosed_quote (String dq "abc ")) as (H1 & H2 & _);
    [reflexivity | by vm_compute |].
  split; [exact H1 | exact H2].
Defined.

(** A [TITLE] line whose value is a pair of quotes with nothing between them
    stores nothing. *)
Lemma title_empty_quotes_not_stored :
  let line := "TITLE " +:+ quoted "" in
  re_match line = Some ("TITLE", quoted "")
  ∧ strip (quoted "") = quoted ""
  ∧ directive no_flags initial line = Ok initial
  ∧ deref initial (current_dict initial) !! "TITLE" = None
  ∧ deref initial (current_dict initial) !! "TITLE_RAW" = None.
Proof. by vm_compute. Qed.

(** C4, in the form that the code satisfies.  For every [TITLE] directive
    whose value is enclosed in matching double quotes and is not empty once
    unquoted and trimmed, the parser stores in the current dictionary the
    trim-and-unquote result under ["TITLE"] and the unquote-only result under
    ["TITLE_RAW"]. *)
Theorem title_stored flags (st : state) (line m2 inner : string) :
  wf st →
  re_match line = Some ("TITLE", m2) →
  strip m2 = quoted inner →
  strip inner ≠ "" →
  ∃ st', directive flags st line = Ok st'
    ∧ current_dict st' = current_dict st
    ∧ deref st' (current_dict st') !! "TITLE" = Some (strip inner)
    ∧ deref st' (current_dict st') !! "TITLE_RAW" = Some inner.
Proof.
  intros Hwf Hm Hq Hne.
  pose proof (unquote_quoted _ _ true Hq) as Ht.
  pose proof (unquote_quoted _ _ false Hq) as Hr. simpl in Ht, Hr.
  eexists. split.
  { apply directive_Ok, step_title; [done |]. by rewrite Ht. }
  split; [done |].
  rewrite Ht, Hr. simpl current_dict.
  rewrite !deref_setitem_eq by auto using wf_setitem.
  by rewrite lookup_insert_ne, !lookup_insert_eq.
Qed.

Lemma title_stored_witness :
  ∃ st', directive no_flags initial ("TITLE " +:+ quoted "Song ") = Ok st'
    ∧ current_dict st' = current_dict initial
    ∧ deref st' (current_dict st') !! "TITLE" = Some "Song"
    ∧ deref st' (current_dict st') !! "TITLE_RAW" = Some "Song ".
Proof.
  apply (title_stored no_flags initial _ (quoted "Song ") "Song ");
    [apply wf_initial | by apply re_match_title | reflexivity | by vm_compute].
Defined.

(** ** Track numbers *)

Lemma body_declared flags st line st' :
  body flags st line = Ok st' →
  (declared_number line = None ∧ track_list st' = track_list st)
  ∨ (declared_number line = Some (Z.of_nat (length (track_list st)) + 1)%Z
     ∧ st' = new_track st).
Proof.
  unfold declared_number.
  intros [[-> ->] | [_ Hs]]%body_Ok; [by left |].
  destruct Hs as [k m2 Hm Hv|m2 Hm|m2 Hm Hn|m2 Hm Hv|k m2 Hm Hi Ht Htt Hv];
    rewrite Hm.
  - left. split; [| done].
    destruct (String.eqb_spec k "TRACK") as [-> |]; [| done].
    destruct (value_of_track flags st _ _ Hm) as (Hv' & Hne & _). congruence.
  - by left.
  - right. split; [| done].
    destruct (value_of_track flags st _ _ Hm) as (_ & _ & Hd).
    rewrite unquote_digits by done. by apply int_Some in Hn as [-> _].
  - by left.
  - left. by destruct (String.eqb_spec k "TRACK").
Qed.

Lemma length_new_track st :
  length (track_list (new_track st)) = S (length (track_list st)).
Proof. unfold new_track; simpl. rewrite length_app. simpl. lia. Qed.

Lemma omap_step {A B} (f : A → option B) (x : A) (l : list A) :
  omap f (x :: l)
  = match f x with Some y => y :: omap f l | None => omap f l end.
Proof. done. Qed.

Lemma loop_declared flags lines st st' :
  loop flags st lines = Ok st' →
  ∃ k, omap declared_number lines
       = Z.of_nat <$> seq (S (length (track_list st))) k
     ∧ length (track_list st') = length (track_list st) + k.
Proof.
  revert st. induction lines as [|l ls IH]; intros st.
  - intros [= <-]. by exists 0.
  - intros (st1 & Hb & Hl)%loop_cons.
    destruct (IH _ Hl) as (k & Hk & Hlen).
    destruct (body_declared _ _ _ _ Hb) as [[Hd Ht] | [Hd ->]];
      rewrite omap_step, Hd.
    + exists k. by rewrite <-Ht.
    + exists (S k). rewrite length_new_track in Hk, Hlen.
      rewrite Hk, Hlen. split; [| lia]. rewrite <-cons_seq, fmap_cons.
      f_equal. lia.
Qed.

Lemma parse_cue_Ok flags text d :
  parse_cue flags text = Ok d ↔
  ∃ st, loop flags initial (split nl text) = Ok st
    ∧ check_titles (tracks st) = true
    ∧ d = <["TRACK_LIST" := VList (tracks st)]> (VStr <$> deref st disc_dict).
Proof.
  unfold parse_cue, finish.
  destruct (loop flags initial (split nl text)) as [st|e]; simpl.
  - destruct (check_titles (tracks st)) eqn:Hc.
    + split; [intros [= <-]; eauto | by intros (? & [= <-] & _ & ->)].
    + split; [done | intros (? & [= <-] & ? & _); congruence].
  - split; [done | by intros (? & ? & _)].
Qed.

Lemma parse_cue_total flags text :
  (∃ d, parse_cue flags text = Ok d) ∨ raises (parse_cue flags text).
Proof.
  destruct (parse_cue flags text) as [d|e]; [left | right]; by eexists.
Qed.

(** C2.  A [TRACK] directive creates the next track when the number it
    declares is the number of tracks so far plus one, and is a fatal error
    otherwise: the [AssertionError] of the check, or before it the
    [ValueError] of [int] when the number is written with more digits than
    the interpreter converts.  So a sheet that parses declares the numbers
    1 to [n] in this order and yields [n] tracks, and a sheet whose declared
    numbers are not 1 to [n] (a gap, a repeat) does not parse. *)
Theorem track_numbers_sequential flags (text : string) :
  (∀ st line m2, re_match line = Some ("TRACK", m2) →
     ∃ n, decimal m2 = Some n ∧
       directive flags st line =
         if (int_max_str_digits <? String.length m2)%nat
         then Raise ValueError
         else if (n =? Z.of_nat (length (track_list st)) + 1)%Z
         then Ok (new_track st) else Raise (AssertionError ""))
  ∧ (∀ d, parse_cue flags text = Ok d →
       ∃ ts, d !! "TRACK_LIST" = Some (VList ts)
         ∧ declared_numbers text = one_to (length ts))
  ∧ (declared_numbers text ≠ one_to (length (declared_numbers text)) →
     raises (parse_cue flags text)).
Proof.
  assert (∀ d, parse_cue flags text = Ok d →
       ∃ ts, d !! "TRACK_LIST" = Some (VList ts)
         ∧ declared_numbers text = one_to (length ts)) as Hok.
  { intros d (st & Hl & _ & ->)%parse_cue_Ok. exists (tracks st).
    split; [apply lookup_insert_eq |].
    destruct (loop_declared _ _ _ _ Hl) as (k & Hk & Hlen).
    unfold declared_numbers, one_to, tracks. rewrite Hk, length_fmap, Hlen.
    done. }
  split; [intros st line m2; apply directive_track |]. split; [done |].
  intros Hne. destruct (parse_cue_total flags text) as [[d Hd] | ?]; [| done].
  destruct (Hok d Hd) as (ts & _ & Hts). destruct Hne.
  rewrite Hts. unfold one_to. by rewrite length_fmap, length_seq.
Qed.

Lemma track_numbers_sequential_witness :
  declared_numbers sheet_123 = [1; 2; 3]%Z
  ∧ track_titles (parse_cue no_flags sheet_123)
    = Ok [Some "One"; Some "Two"; Some "Three"]
  ∧ declared_numbers sheet_13 = [1; 3]%Z
  ∧ raises (parse_cue no_flags sheet_13).
Proof.
  split; [reflexivity |]. split; [by vm_compute |]. split; [reflexivity |].
  apply (track_numbers_sequential no_flags sheet_13). by vm_compute.
Defined.

Lemma sheet_13_fails :
  parse_cue no_flags sheet_13 = Raise (AssertionError "").
Proof. by vm_compute. Qed.

(** The number 1 written with 4300 zeros before it is not converted. *)
Lemma track_number_too_long :
  let number := String.concat "" (repeat "0" int_max_str_digits) +:+ "1" in
  decimal number = Some 1%Z
  ∧ parse_cue no_flags (sheet ["TRACK " +:+ number +:+ " AUDIO"; "TITLE One"])
    = Raise ValueError.
Proof. by vm_compute. Qed.

(** ** The reserved key *)

Lemma loop_no_track_list flags lines st :
  loop flags initial lines = Ok st → no_key "TRACK_LIST" st.
Proof.
  intros Hl. eapply no_key_loop; [done | | done | apply no_key_initial].
  intros l m2 _ [_ Hs%shape_no_underscore]%re_match_shape. by destruct Hs.
Qed.

(** C7.  No line that matches its pattern has the key ["TRACK_LIST"], and a
    directive writes under the key of its line or under ["TITLE_RAW"]: when
    parsing succeeds no dictionary of the store has the key, so the
    ["TRACK_LIST"] entry of the result is new and is the track sequence that
    the parser built. *)
Theorem track_list_reserved :
  (∀ line k m2, re_match line = Some (k, m2) → k ≠ "TRACK_LIST")
  ∧ (∀ flags text d,
       parse_cue flags text = Ok d →
       ∃ st, loop flags initial (split nl text) = Ok st
         ∧ no_key "TRACK_LIST" st
         ∧ deref st disc_dict !! "TRACK_LIST" = None
         ∧ d !! "TRACK_LIST" = Some (VList (tracks st))
         ∧ ∀ k, k ≠ "TRACK_LIST" → d !! k = VStr <$> deref st disc_dict !! k).
Proof.
  split.
  - intros line k m2 [_ Hs%shape_no_underscore]%re_match_shape. by destruct Hs.
  - intros flags text d (st & Hl & _ & ->)%parse_cue_Ok. exists st.
    pose proof (loop_no_track_list _ _ _ Hl) as Hk.
    split; [done |]. split; [done |]. split; [by apply no_key_deref |].
    split; [apply lookup_insert_eq |].
    intros k Hne. by rewrite lookup_insert_ne, lookup_fmap.
Qed.

Lemma track_list_reserved_witness :
  ∃ st, loop no_flags initial (split nl sheet_123) = Ok st
    ∧ deref st disc_dict !! "TRACK_LIST" = None
    ∧ length (tracks st) = 3.
Proof.
  destruct (proj2 track_list_reserved no_flags sheet_123
              (default ∅ (match parse_cue no_flags sheet_123 with
                          | Ok d => Some d | Raise _ => None end)))
    as (st & Hl & _ & Hd & _ & _); [by vm_compute |].
  exists st. split; [exact Hl |]. split; [exact Hd |].
  revert Hl. vm_compute. by intros [= <-].
Defined.

(** ** Inheritance *)

Lemma step_track_inv flags st line st' :
  is_track line → step flags st line st' → st' = new_track st.
Proof.
  intros [m2 Hm] Hs. destruct (value_of_track flags st _ _ Hm) as (Hv & Hne & _).
  destruct Hs as [k m2' Hm' Hv'| | | |]; congruence.
Qed.

Lemma step_other_inv flags st line st' :
  ¬ is_track line → step flags st line st' →
  st' = st ∨ ∃ k v, st' = setitem k v st
                   ∨ ∃ k' v', st' = setitem k' v' (setitem k v st).
Proof.
  intros Hnt Hs. destruct Hs as [| |m2 Hm _| |].
  - by left.
  - by left.
  - destruct Hnt. by exists m2.
  - right. do 2 eexists. right. by do 2 eexists.
  - right. do 2 eexists. by left.
Qed.

Lemma wf_tracks st :
  wf st → track_list st ≠ [] →
  current_dict st ≠ disc_dict ∧ NoDup (track_list st)
  ∧ ∃ earlier, track_list st = earlier ++ [current_dict st].
Proof.
  intros (n & Hl & Ht & Hc) Hne. rewrite Ht, Hc in *.
  destruct n as [|n]; [done |]. split; [done |]. split; [apply NoDup_seq |].
  exists (seq 1 n). by rewrite seq_S.
Qed.

Lemma wf_track_ref st r : wf st → r ∈ track_list st → r < length (store st).
Proof.
  intros (n & -> & -> & _) Hr%elem_of_seq. lia.
Qed.

(** C3.  In a state that the parser reaches, a [TRACK] directive adds to the
    store a new dictionary, the copy of the disc dictionary without its
    ["TITLE"], and changes none of those that exist; once a track exists the
    current dictionary is that of the last track, and a line that is not a
    [TRACK] directive changes at most this dictionary: the disc dictionary
    and those of the other tracks stay as they are. *)
Theorem track_fields_independent flags (lines : list string) (st : state) :
  loop flags initial lines = Ok st →
  (∀ line st', is_track line → directive flags st line = Ok st' →
     st' = new_track st
     ∧ current_dict st' = length (store st)
     ∧ (current_dict st' ∉ disc_dict :: track_list st)
     ∧ track_list st' = track_list st ++ [current_dict st']
     ∧ deref st' (current_dict st') = delete "TITLE" (deref st disc_dict)
     ∧ ∀ r, r < length (store st) → deref st' r = deref st r)
  ∧ (track_list st ≠ [] →
     (∃ earlier, track_list st = earlier ++ [current_dict st])
     ∧ NoDup (track_list st)
     ∧ current_dict st ≠ disc_dict
     ∧ ∀ line st', ¬ is_track line → directive flags st line = Ok st' →
         track_list st' = track_list st
         ∧ current_dict st' = current_dict st
         ∧ deref st' disc_dict = deref st disc_dict
         ∧ ∀ r, r ≠ current_dict st → deref st' r = deref st r).
Proof.
  intros Hwf%wf_loop; [| apply wf_initial]. split.
  - intros line st' Ht Hs%directive_Ok.
    rewrite (step_track_inv _ _ _ _ Ht Hs). split; [done |]. split; [done |].
    split.
    { simpl. intros [Hr | Hr%(wf_track_ref _ _ Hwf)]%elem_of_cons; [| lia].
      destruct Hwf as (n & Hl & _). unfold disc_dict in Hr. lia. }
    split; [done |]. split; [apply deref_new_track_new |].
    apply deref_new_track_old.
  - intros Hne. destruct (wf_tracks _ Hwf Hne) as (Hc & Hnd & He).
    split; [done |]. split; [done |]. split; [done |].
    intros line st' Hnt Hs%directive_Ok.
    destruct (step_other_inv _ _ _ _ Hnt Hs)
      as [-> | (k & v & [-> | (k' & v' & ->)])]; [done | |].
    + split; [done |]. split; [done |].
      split; [by apply deref_setitem_ne |].
      intros r Hr. by apply deref_setitem_ne.
    + split; [done |]. split; [done |].
      split; [by rewrite !deref_setitem_ne |].
      intros r Hr. by rewrite !deref_setitem_ne.
Qed.

Lemma sheet_performers_parsed :
  performers (parse_cue no_flags sheet_performers)
  = Ok (Some (VStr "A"), [Some "B"; Some "A"]).
Proof. by vm_compute. Qed.

Lemma track_fields_independent_witness :
  let lines := ["PERFORMER " +:+ quoted "A"; "TRACK 01 AUDIO"; "TITLE One"] in
  let st := state_after (loop no_flags initial lines) in
  let st' := state_after (directive no_flags st ("PERFORMER " +:+ quoted "B")) in
  loop no_flags initial lines = Ok st
  ∧ deref st' (current_dict st') !! "PERFORMER" = Some "B"
  ∧ deref st disc_dict !! "PERFORMER" = Some "A"
  ∧ deref st' disc_dict = deref st disc_dict.
Proof.
  intros lines st st'.
  assert (loop no_flags initial lines = Ok st) as Hl by by vm_compute.
  split; [exact Hl |]. split; [by vm_compute |]. split; [by vm_compute |].
  destruct (track_fields_independent no_flags lines st Hl) as [_ Hframe].
  destruct Hframe as (_ & _ & _ & Hframe); [by vm_compute |].
  destruct (Hframe ("PERFORMER " +:+ quoted "B") st') as (_ & _ & Hdisc & _).
  - intros [m2 Hm]. by vm_compute in Hm.
  - by vm_compute.
  - exact Hdisc.
Defined.

(** C9.  The dictionary that a [TRACK] directive creates has every entry of
    the disc dictionary but ["TITLE"]: it has the ["TITLE_RAW"] of the disc,
    which stays in it through every line that is neither a [TRACK] directive
    nor a [TITLE] directive with a value, and which a [TITLE] directive with
    a value replaces. *)
Theorem title_raw_inherited flags (lines : list string) (st : state) :
  loop flags initial lines = Ok st →
  (∀ line st', is_track line → directive flags st line = Ok st' →
     deref st' (current_dict st') !! "TITLE" = None
     ∧ (∀ k, k ≠ "TITLE" →
          deref st' (current_dict st') !! k = deref st disc_dict !! k)
     ∧ deref st' (current_dict st') !! "TITLE_RAW"
       = deref st disc_dict !! "TITLE_RAW")
  ∧ (∀ line st', ¬ is_track line → ¬ stores_title line →
       directive flags st line = Ok st' →
       current_dict st' = current_dict st
       ∧ deref st' (current_dict st') !! "TITLE_RAW"
         = deref st (current_dict st) !! "TITLE_RAW")
  ∧ (∀ line m2 st', re_match line = Some ("TITLE", m2) →
       unquote m2 true ≠ "" → directive flags st line = Ok st' →
       current_dict st' = current_dict st
       ∧ deref st' (current_dict st') !! "TITLE_RAW" = Some (unquote m2 false)).
Proof.
  intros Hwf%wf_loop; [| apply wf_initial]. split; [| split].
  - intros line st' Ht Hs%directive_Ok.
    rewrite (step_track_inv _ _ _ _ Ht Hs), deref_new_track_new.
    split; [apply lookup_delete_eq |].
    split; [| by apply lookup_delete_ne].
    intros k Hk. by apply lookup_delete_ne.
  - intros line st' Hnt Hns Hs%directive_Ok.
    destruct Hs as [| |m2 Hm _|m2 Hm Hv|k m2 Hm _ _ _ _]; [done | done | | |].
    + destruct Hnt. by exists m2.
    + destruct Hns. by exists m2.
    + split; [done |]. simpl current_dict.
      rewrite deref_setitem_eq, lookup_insert_ne; [done | | done..].
      intros ->. apply re_match_shape in Hm as [_ Hs%shape_no_underscore].
      by destruct Hs.
  - intros line m2 st' Hm Hv Hs%directive_Ok.
    destruct Hs as [k m2' Hm' Hv'|m2' Hm'|m2' Hm' _|m2' Hm' _
                    |k m2' Hm' _ _ Hk _];
      rewrite Hm in Hm'; simplify_eq.
    + by rewrite value_of_other in Hv'.
    + split; [done |]. simpl current_dict.
      rewrite deref_setitem_eq by auto using wf_setitem.
      apply lookup_insert_eq.
Qed.

Lemma title_raw_inherited_witness :
  let lines := ["TITLE " +:+ quoted "Album "] in
  let st := state_after (loop no_flags initial lines) in
  let st' := state_after (directive no_flags st "TRACK 01 AUDIO") in
  loop no_flags initial lines = Ok st
  ∧ directive no_flags st "TRACK 01 AUDIO" = Ok st'
  ∧ deref st disc_dict !! "TITLE" = Some "Album"
  ∧ deref st' (current_dict st') !! "TITLE" = None
  ∧ deref st' (current_dict st') !! "TITLE_RAW" = Some "Album ".
Proof.
  intros lines st st'.
  assert (loop no_flags initial lines = Ok st) as Hl by by vm_compute.
  assert (directive no_flags st "TRACK 01 AUDIO" = Ok st') as Hd by by vm_compute.
  split; [exact Hl |]. split; [exact Hd |]. split; [by vm_compute |].
  destruct (title_raw_inherited no_flags lines st Hl) as (Htrack & _ & _).
  destruct (Htrack "TRACK 01 AUDIO" st') as (Ht & _ & Hraw);
    [by exists "01" | exact Hd |].
  split; [exact Ht |]. rewrite Hraw. by vm_compute.
Defined.

(** ** Titles *)

Lemma track_line_true l : track_line l = true ↔ is_track (strip l).
Proof.
  unfold track_line, is_track.
  destruct (re_match (strip l)) as [[k m2]|]; [| by split; [| intros [? ?]]].
  destruct (String.eqb_spec k "TRACK") as [-> | Hk].
  - split; [by exists m2 | done].
  - split; [done | intros [? ?]; congruence].
Qed.

Lemma titled_setitem st k v r :
  wf st →
  titled (setitem k v st) r ↔
  titled st r ∨ (r = current_dict st ∧ k = "TITLE").
Proof.
  intros Hwf. unfold titled.
  destruct (decide (r = current_dict st)) as [-> | Hr].
  - rewrite deref_setitem_eq by done.
    destruct (decide (k = "TITLE")) as [-> | Hk].
    + rewrite lookup_insert_eq. split; [by right; split | done].
    + rewrite lookup_insert_ne by done. split; [by left |].
      by intros [? | [_ ?]].
  - rewrite deref_setitem_ne by done. split; [by left |].
    by intros [? | [? _]].
Qed.

(** What a line that is read does to the titles. *)
Lemma body_titled flags st l st' :
  wf st → body flags st l = Ok st' →
  (track_line l = true ∧ st' = new_track st)
  ∨ (track_line l = false ∧ current_dict st' = current_dict st
     ∧ ∀ r, titled st' r ↔
            titled st r ∨ (r = current_dict st ∧ title_line true l = true)).
Proof.
  intros Hwf Hb.
  destruct (track_line l) eqn:Ht.
  { left. split; [done |]. apply track_line_true in Ht.
    apply body_Ok in Hb as [[He _] | [_ Hs]].
    - destruct Ht as [m2 Hm]. rewrite He in Hm. by vm_compute in Hm.
    - by eapply step_track_inv. }
  right. split; [done |]. unfold title_line.
  apply body_Ok in Hb as [[He ->] | [_ Hs]].
  { split; [done |]. intros r. rewrite He. split; [by left |].
    by intros [? | [_ ?]]. }
  destruct Hs as [k m2 Hm Hv|m2 Hm|m2 Hm _|m2 Hm Hv|k m2 Hm _ _ Hk _];
    rewrite Hm; simpl.
  - split; [done |]. intros r. split; [by left |].
    intros [? | [_ [Hk He]%andb_prop]]; [done |].
    apply String.eqb_eq in Hk as ->. rewrite value_of_other in Hv by done.
    by rewrite Hv in He.
  - split; [done |]. intros r. split; [by left |]. by intros [? | [_ ?]].
  - apply not_true_iff_false in Ht. destruct Ht. apply track_line_true.
    by exists m2.
  - split; [done |]. intros r. apply is_empty_false in Hv as ->. simpl.
    rewrite !titled_setitem by auto using wf_setitem. simpl.
    split; [intros [[? | [? _]] | [_ ?]]; [by left | by right | done] |].
    intros [? | [? _]]; [by left; left | by left; right].
  - split; [done |]. intros r. rewrite titled_setitem by done.
    destruct (String.eqb_spec k "TITLE"); [done |]. simpl.
    split; [intros [? | [_ ?]]; [by left | done] | intros [? | [_ ?]]; [by left | done]].
Qed.

Lemma titled_new_track st r :
  wf st →
  titled (new_track st) r ↔ titled st r ∧ r < length (store st).
Proof.
  intros Hwf. unfold titled.
  destruct (decide (r < length (store st))) as [Hr | Hr].
  - rewrite deref_new_track_old by done. tauto.
  - split; [| tauto]. intros Ht. exfalso. revert Ht.
    destruct (decide (r = length (store st))) as [-> | Hr'].
    + change (length (store st)) with (current_dict (new_track st)).
      rewrite deref_new_track_new, lookup_delete_eq. by intros [? ?].
    + unfold deref, new_track; simpl.
      rewrite lookup_ge_None_2; [by intros [? ?] |].
      rewrite length_app. simpl. lia.
Qed.

Lemma not_titled_initial r : ¬ titled initial r.
Proof.
  unfold titled, deref. destruct r as [|r]; simpl;
    rewrite lookup_empty; by intros [? ?].
Qed.

(** The tracks of the final state all have a title exactly when those
    closed before the lines had one and every block of the lines has a
    [TITLE] directive with a value. *)
Lemma loop_titled flags lines st st' :
  wf st → loop flags st lines = Ok st' →
  (∀ r, 1 ≤ r ≤ current_dict st' → titled st' r) ↔
  (∀ r, 1 ≤ r < current_dict st → titled st r)
  ∧ blocks_titled (title_line true) (negb (current_dict st =? 0))
      (bool_decide (titled st (current_dict st))) lines = true.
Proof.
  revert st. induction lines as [|l ls IH]; intros st Hwf.
  - intros [= <-]. simpl.
    destruct (Nat.eqb_spec (current_dict st) 0) as [Hc | Hc]; simpl.
    + split; [| intros _ r; lia]. intros _. split; [intros r; lia | done].
    + rewrite bool_decide_eq_true. split.
      * intros H. split; [intros r ?; apply H; lia | apply H; lia].
      * intros [H Hcur] r Hr.
        destruct (decide (r = current_dict st)) as [-> |]; [done |].
        apply H. lia.
  - intros (st1 & Hb & Hl)%loop_cons.
    pose proof (wf_body _ _ _ _ Hb Hwf) as Hwf1.
    rewrite (IH st1 Hwf1 Hl). clear IH Hl.
    destruct Hwf as (n & Hlen & Htl & Hcur).
    assert (wf st) as Hwf by (by exists n).
    destruct (body_titled _ _ _ _ Hwf Hb) as [[Ht ->] | (Ht & Hc & Htitled)];
      simpl; rewrite Ht.
    + rewrite Hlen, Hcur. simpl.
      rewrite (bool_decide_eq_false_2 (titled (new_track st) (S n))).
      2:{ rewrite titled_new_track by done. lia. }
      rewrite andb_true_iff, orb_true_iff, negb_true_iff, negb_false_iff,
        Nat.eqb_eq, bool_decide_eq_true.
      setoid_rewrite titled_new_track; [| done..]. rewrite Hlen.
      split.
      * intros [H Hbl]. split; [intros r ?; apply H; lia |].
        split; [| done]. destruct n as [|n]; [by left | right].
        apply H. lia.
      * intros (H & [-> | Hn] & Hbl); (split; [| done]).
        -- intros r ?; lia.
        -- intros r ?. split; [| lia].
           destruct (decide (r = n)) as [-> |]; [done | apply H; lia].
    + rewrite Hc.
      assert (bool_decide (titled st1 (current_dict st))
              = bool_decide (titled st (current_dict st)) || title_line true l)
        as ->.
      { apply eq_true_iff_eq.
        rewrite orb_true_iff, !bool_decide_eq_true, Htitled. tauto. }
      split; intros [H Hbl]; (split; [| done]); intros r Hr.
      * destruct (proj1 (Htitled r) (H r Hr)) as [? | [? _]]; [done | lia].
      * apply Htitled. left. by apply H.
Qed.

Lemma check_titles_spec ts :
  check_titles ts = true ↔ ∀ t, t ∈ ts → is_Some (t !! "TITLE").
Proof.
  unfold check_titles. rewrite forallb_forall.
  setoid_rewrite bool_decide_eq_true. by setoid_rewrite list_elem_of_In.
Qed.

Lemma check_titles_titled st :
  wf st →
  check_titles (tracks st) = true ↔
  ∀ r, 1 ≤ r ≤ current_dict st → titled st r.
Proof.
  intros (n & Hlen & Htl & Hcur). rewrite check_titles_spec.
  unfold tracks, titled. rewrite Htl, Hcur. split.
  - intros H r Hr. apply H, list_elem_of_fmap. exists r.
    split; [done |]. apply elem_of_seq. lia.
  - intros H t (r & -> & Hr%elem_of_seq)%list_elem_of_fmap. apply H. lia.
Qed.

(** A sheet whose only track has a [TITLE] line with nothing between its
    quotes: the loop ends, every block has a [TITLE] line, and the check of
    the titles fails. *)
Lemma title_line_without_value_fails :
  let text := sheet ["TRACK 01 AUDIO"; "TITLE " +:+ quoted ""] in
  (∃ st, loop no_flags initial (split nl text) = Ok st)
  ∧ blocks_titled (title_line false) false false (split nl text) = true
  ∧ parse_cue no_flags text = Raise (AssertionError "").
Proof. split; [by eexists; vm_compute | by vm_compute]. Qed.

(** C6, in the form that the code satisfies.  When the loop has read all the
    lines, parsing fails if a track dictionary has no ["TITLE"], and only
    then; for every sheet in which each track block has a [TITLE] directive
    whose value is not empty once unquoted, the check succeeds and the result
    is the disc dictionary with the track sequence under ["TRACK_LIST"]. *)
Theorem titles_checked_at_end flags (text : string) (st : state) :
  loop flags initial (split nl text) = Ok st →
  ((∃ t, t ∈ tracks st ∧ t !! "TITLE" = None) →
   parse_cue flags text = Raise (AssertionError ""))
  ∧ (blocks_titled (title_line true) false false (split nl text) = true →
     (∀ t, t ∈ tracks st → is_Some (t !! "TITLE"))
     ∧ parse_cue flags text
       = Ok (<["TRACK_LIST" := VList (tracks st)]>
               (VStr <$> deref st disc_dict)))
  ∧ (blocks_titled (title_line true) false false (split nl text) = false →
     parse_cue flags text = Raise (AssertionError "")).
Proof.
  intros Hl. pose proof (wf_loop _ _ _ _ Hl wf_initial) as Hwf.
  pose proof (loop_titled _ _ _ _ wf_initial Hl) as Hiff.
  rewrite <-check_titles_titled in Hiff by done.
  rewrite (bool_decide_eq_false_2 (titled initial _)) in Hiff
    by apply not_titled_initial.
  unfold initial, disc_dict in Hiff; simpl in Hiff.
  unfold parse_cue, finish. rewrite Hl. simpl.
  split; [| split].
  - intros (t & Hin & Hnone).
    destruct (check_titles (tracks st)) eqn:Hc; [| done].
    rewrite check_titles_spec in Hc. apply Hc in Hin as [? ?]. congruence.
  - intros Hb. assert (check_titles (tracks st) = true) as Hc.
    { apply Hiff. split; [intros r ?; lia | done]. }
    rewrite Hc. split; [by apply check_titles_spec | done].
  - intros Hb. destruct (check_titles (tracks st)) eqn:Hc; [| done].
    destruct (proj1 Hiff eq_refl) as [_ ?]. congruence.
Qed.

Lemma titles_checked_at_end_witness :
  let st := state_after (loop no_flags initial (split nl sheet_123)) in
  parse_cue no_flags sheet_123
  = Ok (<["TRACK_LIST" := VList (tracks st)]> (VStr <$> deref st disc_dict))
  ∧ length (tracks st) = 3.
Proof.
  intros st.
  destruct (titles_checked_at_end no_flags sheet_123 st) as (_ & Hok & _);
    [by vm_compute |].
  destruct Hok as [_ Hok]; [by vm_compute |].
  split; [exact Hok | by vm_compute].
Defined.

(** * The file resolver *)

Import PathLib Resolve.

Lemma name_child p n : name (child p n) = n.
Proof. unfold name, child; simpl. apply last_last. Qed.

Lemma iterdir_Ok fs dir names :
  listdir fs dir = Some names → iterdir fs dir = Ok (child dir <$> names).
Proof. unfold iterdir. by intros ->. Qed.

(** ** The sheet *)

(** A directory with the two sheets [a.cue] and [b.cue]: the first one
    listed is chosen. *)
Lemma determine_cue_two_sheets :
  let fs := fs_of ["a.cue"; "b.cue"] in
  iterdir fs album = Ok [child album "a.cue"; child album "b.cue"]
  ∧ filter (is_sheet fs) [child album "a.cue"; child album "b.cue"]
    = [child album "a.cue"; child album "b.cue"]
  ∧ determine_cue fs no_flags (Some album) = Ok (child album "a.cue").
Proof. by vm_compute. Qed.

(** C1, in the form that the code satisfies.  Without an explicit sheet
    argument, the resolution of the sheet needs a root directory, looks at the
    entries of this directory only, fails when none of them is a file with the
    sheet suffix, and otherwise returns the first of them in the order of the
    listing, however many there are. *)
Theorem determine_cue_scan (fs : FileSystem) (flags : Flags) :
  cue flags = None →
  determine_cue fs flags None
  = Raise (AssertionError "Neither --input nor --cue specified.")
  ∧ ∀ rootdir,
      (∀ entries,
         iterdir fs rootdir = Ok entries →
         filter (is_sheet fs) entries = [] →
         determine_cue fs flags (Some rootdir)
         = Raise (AssertionError "No cue found in --input"))
      ∧ (∀ before x after,
           iterdir fs rootdir = Ok (before ++ x :: after) →
           is_sheet fs x → (∀ y, y ∈ before → ¬ is_sheet fs y) →
           determine_cue fs flags (Some rootdir) = Ok (resolve fs x)).
Proof.
  intros Hcue. unfold determine_cue. rewrite Hcue. split; [done |].
  intros rootdir. fold (is_sheet fs). split.
  - intros entries -> Hnone. simpl. by rewrite Hnone.
  - intros before x after -> Hx Hbefore. simpl.
    rewrite filter_app, filter_cons_True by done.
    replace (filter (is_sheet fs) before) with (@nil Path); [done |].
    symmetry. clear -Hbefore. induction before as [|y ys IH]; [done |].
    rewrite filter_cons_False; [| apply Hbefore; by left].
    apply IH. intros z Hz. apply Hbefore. by right.
Qed.

Lemma determine_cue_scan_witness :
  let fs := fs_of ["cover.jpg"; "a.cue"; "b.cue"] in
  determine_cue fs no_flags (Some album) = Ok (child album "a.cue")
  ∧ determine_cue (fs_of ["cover.jpg"]) no_flags (Some album)
    = Raise (AssertionError "No cue found in --input").
Proof.
  intros fs.
  destruct (determine_cue_scan fs no_flags eq_refl) as [_ Hscan].
  destruct (determine_cue_scan (fs_of ["cover.jpg"]) no_flags eq_refl)
    as [_ Hnone].
  split.
  - apply (proj2 (Hscan album) [child album "cover.jpg"] (child album "a.cue")
             [child album "b.cue"]); [reflexivity | by vm_compute |].
    intros y ->%list_elem_of_singleton [_ Hy]. by vm_compute in Hy.
  - apply (proj1 (Hnone album) [child album "cover.jpg"]);
      [reflexivity | by vm_compute].
Defined.

(** ** The audio file *)

Lemma parse_without_file flags text d :
  parse_cue flags text = Ok d → no_file_directive text → d !! "FILE" = None.
Proof.
  intros (st & Hl & _ & ->)%parse_cue_Ok Hno.
  rewrite lookup_insert_ne, lookup_fmap by done.
  rewrite (no_key_deref "FILE"); [done |].
  eapply no_key_loop; [done | | done | apply no_key_initial].
  intros l m2 Hin. by apply Hno.
Qed.

(** C10.  Without an explicit audio argument, [determine_wav] reads the
    ["FILE"] entry of the parsed sheet before it looks at any directory: for
    a sheet with no [FILE] directive the entry is missing and the resolution
    ends in the [KeyError] of the lookup, whatever the file system holds and
    with or without a root directory. *)
Theorem determine_wav_needs_file (fs : FileSystem) (flags : Flags)
  (text : string) (d : gmap string value) (rootdir : option Path)
  (cue_path : Path) :
  parse_cue flags text = Ok d → no_file_directive text → wav flags = None →
  d !! "FILE" = None
  ∧ determine_wav fs flags rootdir cue_path d = Raise (KeyError "FILE").
Proof.
  intros Hp Hno Hwav. pose proof (parse_without_file _ _ _ Hp Hno) as Hd.
  split; [done |]. unfold determine_wav, declared_file. rewrite Hwav, Hd.
  by destruct rootdir.
Qed.

Lemma determine_wav_needs_file_witness :
  let fs := fs_of ["disc.cue"; "disc.flac"] in
  let d := parsed (parse_cue no_flags sheet_123) in
  audio_files fs album = Ok [child album "disc.flac"]
  ∧ determine_wav fs no_flags (Some album) (child album "disc.cue") d
    = Raise (KeyError "FILE").
Proof.
  intros fs d. split; [by vm_compute |].
  apply (determine_wav_needs_file fs no_flags sheet_123 d);
    [by vm_compute | | reflexivity].
  intros l m2 Hin. revert Hin. unfold sheet_123.
  change (split nl _) with
    ["TRACK 01 AUDIO"; "  TITLE One"; "TRACK 02 AUDIO"; "  TITLE Two";
     "TRACK 03 AUDIO"; "  TITLE Three"].
  rewrite !elem_of_cons, elem_of_nil.
  intros [-> | [-> | [-> | [-> | [-> | [-> | []]]]]]]; by vm_compute.
Defined.

(** ** The cover *)

(** The loop returns at the first file with a priority name, whatever
    follows it and whatever it has collected. *)
Lemma scan_covers_priority fs before x after pics :
  is_priority_cover fs x →
  (∀ y, y ∈ before → ¬ is_priority_cover fs y) →
  scan_covers fs (before ++ x :: after) pics = inl (resolve fs x).
Proof.
  intros [Hf Hn] Hbefore. revert pics.
  induction before as [|y ys IH]; intros pics; simpl.
  - by rewrite Hf, bool_decide_eq_true_2.
  - assert (∀ z, z ∈ ys → ¬ is_priority_cover fs z) as Hys.
    { intros z Hz. apply Hbefore. by right. }
    destruct (is_file fs y) eqn:Hy; [| by apply IH].
    rewrite bool_decide_eq_false_2.
    + destruct (bool_decide _); by apply IH.
    + intros Hp. apply (Hbefore y); [by left | done].
Qed.

(** What a scan of covers returns: the first file with a priority name, or
    without one what it had with the images listed, in their order. *)
Lemma scan_covers_spec fs es pics :
  match scan_covers fs es pics with
  | inl p => ∃ x, x ∈ es ∧ is_priority_cover fs x ∧ p = resolve fs x
  | inr pics' =>
      (∀ x, x ∈ es → ¬ is_priority_cover fs x)
      ∧ pics' = pics ++ filter (is_picture fs) es
  end.
Proof.
  revert pics. induction es as [|x es IH]; intros pics; simpl.
  - split; [by intros x ?%elem_of_nil | by rewrite app_nil_r].
  - destruct (is_file fs x) eqn:Hf.
    + destruct (bool_decide_reflect
                  (lower (name x) ∈ PRIORITY_COVER_NAMES)) as [Hn | Hn].
      { exists x. split; [by left |]. by split. }
      destruct (bool_decide_reflect
                  (lower (suffix x) ∈ COVER_SUFFIX)) as [Hs | Hs].
      * specialize (IH (pics ++ [x])).
        destruct (scan_covers fs es (pics ++ [x])) as [p | pics'].
        -- destruct IH as (y & Hy & Hp). exists y. split; [by right | done].
        -- destruct IH as [Hno ->]. split.
           ++ intros y [-> | Hy]%elem_of_cons; [by intros [_ ?] | by apply Hno].
           ++ rewrite filter_cons_True by done. by rewrite <-(assoc_L (++)).
      * specialize (IH pics).
        destruct (scan_covers fs es pics) as [p | pics'].
        -- destruct IH as (y & Hy & Hp). exists y. split; [by right | done].
        -- destruct IH as [Hno ->]. split.
           ++ intros y [-> | Hy]%elem_of_cons; [by intros [_ ?] | by apply Hno].
           ++ rewrite filter_cons_False; [done |]. by intros [_ ?].
    + specialize (IH pics).
      destruct (scan_covers fs es pics) as [p | pics'].
      * destruct IH as (y & Hy & Hp). exists y. split; [by right | done].
      * destruct IH as [Hno ->]. split.
        -- intros y [-> | Hy]%elem_of_cons; [| by apply Hno].
           intros [? _]. congruence.
        -- rewrite filter_cons_False; [done |]. intros [? _]. congruence.
Qed.

(** A scan of entries without file of a priority name or of the suffix of
    an image collects nothing. *)
Lemma scan_covers_nothing fs es :
  (∀ y, y ∈ es → ¬ is_priority_cover fs y ∧ ¬ is_picture fs y) →
  scan_covers fs es [] = inr [].
Proof.
  intros Hno. pose proof (scan_covers_spec fs es []) as Hs.
  destruct (scan_covers fs es []) as [p | pics].
  - destruct Hs as (x & Hx & Hp & _). by destruct (Hno x Hx).
  - destruct Hs as [_ ->]. f_equal. simpl.
    induction es as [|y es IH]; [done |].
    rewrite filter_cons_False; [| apply Hno; by left].
    apply IH. intros z Hz. apply Hno. by right.
Qed.

(** A priority name is one in any case of its letters. *)
Lemma priority_name n :
  lower n = "folder.jpg" → lower n ∈ PRIORITY_COVER_NAMES.
Proof. intros ->. apply (bool_decide_eq_true_1 _). by vm_compute. Qed.

(** C8.  Without an explicit cover argument, the scan of a directory
    returns the first file whose name in small letters is a priority name,
    at once: what is listed after it and the other images play no part.
    This holds of the scan of the root directory, and of the scan of the
    directory of the sheet, which takes place when there is no root
    directory or when the root directory lists no image.  So a root
    directory that holds the files [random.png] and [folder.jpg], in any
    case of their letters, resolves to the latter in either order of
    listing. *)
Theorem cover_priority_short_circuit (fs : FileSystem) (flags : Flags)
  (natsorted : (Path → string) → list Path → list Path) (cue_path : Path) :
  cover flags = None →
  (∀ rootdir before x after,
     iterdir fs rootdir = Ok (before ++ x :: after) →
     is_priority_cover fs x →
     (∀ y, y ∈ before → ¬ is_priority_cover fs y) →
     determine_cover fs flags natsorted (Some rootdir) cue_path
     = Ok (Some (resolve fs x)))
  ∧ (∀ rootdir before x after,
       no_cover_in fs rootdir →
       iterdir fs (parent cue_path) = Ok (before ++ x :: after) →
       is_priority_cover fs x →
       (∀ y, y ∈ before → ¬ is_priority_cover fs y) →
       determine_cover fs flags natsorted rootdir cue_path
       = Ok (Some (resolve fs x)))
  ∧ (∀ rootdir random folder names,
       lower random = "random.png" → lower folder = "folder.jpg" →
       names ≡ₚ [random; folder] →
       listdir fs rootdir = Some names →
       is_file fs (child rootdir random) = true →
       is_file fs (child rootdir folder) = true →
       determine_cover fs flags natsorted (Some rootdir) cue_path
       = Ok (Some (resolve fs (child rootdir folder)))).
Proof.
  intros Hcover.
  assert (∀ rootdir before x after,
     iterdir fs rootdir = Ok (before ++ x :: after) →
     is_priority_cover fs x →
     (∀ y, y ∈ before → ¬ is_priority_cover fs y) →
     determine_cover fs flags natsorted (Some rootdir) cue_path
     = Ok (Some (resolve fs x))) as Hfirst.
  { intros rootdir before x after Hdir Hx Hbefore.
    unfold determine_cover. rewrite Hcover, Hdir. simpl.
    by rewrite scan_covers_priority. }
  split; [done |]. split.
  - intros rootdir before x after Hroot Hdir Hx Hbefore.
    unfold determine_cover. rewrite Hcover.
    assert (match rootdir with
            | Some r => entries ← iterdir fs r; Ok (scan_covers fs entries [])
            | None => Ok (inr [])
            end = Ok (inr [])) as ->.
    { destruct rootdir as [r|]; [| done].
      destruct Hroot as (entries & -> & Hno). simpl.
      by rewrite scan_covers_nothing. }
    simpl. rewrite Hdir. simpl. by rewrite scan_covers_priority.
  - intros rootdir random folder names Hrandom Hfolder Hperm Hdir
      Hfrandom Hffolder.
    assert (is_priority_cover fs (child rootdir folder)) as Hp.
    { split; [done |]. rewrite name_child. by apply priority_name. }
    assert (¬ is_priority_cover fs (child rootdir random)) as Hnp.
    { intros [_ Hn]. rewrite name_child, Hrandom in Hn. revert Hn.
      apply (bool_decide_eq_false_1 _). by vm_compute. }
    apply Permutation_sym, Permutation_length_2_inv in Hperm as [-> | ->].
    + apply (Hfirst rootdir [child rootdir random] _ []); [| done |].
      * by rewrite (iterdir_Ok _ _ _ Hdir).
      * by intros y ->%list_elem_of_singleton.
    + apply (Hfirst rootdir [] _ [child rootdir random]); [| done |].
      * by rewrite (iterdir_Ok _ _ _ Hdir).
      * intros y Hy. by apply elem_of_nil in Hy.
Qed.

Lemma cover_priority_short_circuit_witness :
  determine_cover (fs_of ["random.png"; "folder.jpg"]) no_flags
    (fun _ pics => pics) (Some album) (child album "disc.cue")
  = Ok (Some (child album "folder.jpg"))
  ∧ determine_cover (fs_of ["folder.jpg"; "random.png"]) no_flags
      (fun _ pics => pics) (Some album) (child album "disc.cue")
    = Ok (Some (child album "folder.jpg"))
  ∧ determine_cover (fs_of ["Random.PNG"; "FOLDER.JPG"]) no_flags
      (fun _ pics => pics) (Some album) (child album "disc.cue")
    = Ok (Some (child album "FOLDER.JPG"))
  ∧ determine_cover
      (fs_two ["disc.flac"] ["scan.png"; "Cover.JPG"; "disc.cue"]) no_flags
      (fun _ pics => pics) (Some album) (child discs "disc.cue")
    = Ok (Some (child discs "Cover.JPG")).
Proof.
  split; [| split; [| split]].
  - apply (proj2 (proj2 (cover_priority_short_circuit
                    (fs_of ["random.png"; "folder.jpg"]) no_flags
                    (fun _ pics => pics) (child album "disc.cue") eq_refl))
             album "random.png" "folder.jpg" ["random.png"; "folder.jpg"]);
      [reflexivity | reflexivity | reflexivity | reflexivity
      | by vm_compute | by vm_compute].
  - apply (proj2 (proj2 (cover_priority_short_circuit
                    (fs_of ["folder.jpg"; "random.png"]) no_flags
                    (fun _ pics => pics) (child album "disc.cue") eq_refl))
             album "random.png" "folder.jpg" ["folder.jpg"; "random.png"]);
      [reflexivity | reflexivity | apply Permutation_swap | reflexivity
      | by vm_compute | by vm_compute].
  - apply (proj2 (proj2 (cover_priority_short_circuit
                    (fs_of ["Random.PNG"; "FOLDER.JPG"]) no_flags
                    (fun _ pics => pics) (child album "disc.cue") eq_refl))
             album "Random.PNG" "FOLDER.JPG" ["Random.PNG"; "FOLDER.JPG"]);
      [reflexivity | reflexivity | reflexivity | reflexivity
      | by vm_compute | by vm_compute].
  - apply (proj1 (proj2 (cover_priority_short_circuit
                    (fs_two ["disc.flac"] ["scan.png"; "Cover.JPG"; "disc.cue"])
                    no_flags (fun _ pics => pics) (child discs "disc.cue")
                    eq_refl))
             (Some album) [child discs "scan.png"] (child discs "Cover.JPG")
             [child discs "disc.cue"]).
    + exists [child album "disc.flac"]. split; [reflexivity |].
      intros y ->%list_elem_of_singleton.
      split; intros [_ Hy]; revert Hy;
        apply (bool_decide_eq_false_1 _); by vm_compute.
    + reflexivity.
    + split; [by vm_compute |]. apply (bool_decide_eq_true_1 _).
      by vm_compute.
    + intros y ->%list_elem_of_singleton [_ Hy]. revert Hy.
      apply (bool_decide_eq_false_1 _). by vm_compute.
Defined.

(** * Further properties of the sheet parser *)

(** ** Trimming *)

Lemma lstrip_head s :
  lstrip s = "" ∨ ∃ c t, lstrip s = String c t ∧ is_space c = false.
Proof.
  induction s as [|c s IH]; [by left |]. simpl.
  destruct (is_space c) eqn:Hc; [done |]. right. by exists c, s.
Qed.

Lemma rstrip_cons c s :
  is_space c = false → rstrip (String c s) = String c (rstrip s).
Proof. intros Hc. simpl. by rewrite Hc. Qed.

Lemma rstrip_idem s : rstrip (rstrip s) = rstrip s.
Proof.
  induction s as [|c s IH]; [done |]. simpl.
  destruct (is_space c && is_empty (rstrip s)) eqn:Hc; [done |].
  simpl. by rewrite IH, Hc.
Qed.

Lemma strip_idem s : strip (strip s) = strip s.
Proof.
  unfold strip. destruct (lstrip_head s) as [-> | (c & t & -> & Hc)]; [done |].
  rewrite rstrip_cons by done. simpl lstrip. rewrite Hc.
  rewrite rstrip_cons by done. by rewrite rstrip_idem.
Qed.

Lemma unquote_strip (s : string) : unquote s true = strip (unquote s false).
Proof. unfold unquote. by destruct (_ && _). Qed.

Lemma unquote_raw_nonempty (s : string) :
  unquote s true ≠ "" → unquote s false ≠ "".
Proof. rewrite unquote_strip. intros Hne Hraw. by rewrite Hraw in Hne. Qed.

(** X1.  The two modes of [unquote] differ by a trim only: the trim mode
    gives the trimmed form of what the other mode gives, a text without
    whitespace at either end; so when the trim mode gives a text that is
    not empty, so does the other mode. *)
Theorem unquote_modes (s : string) :
  unquote s true = strip (unquote s false)
  ∧ strip (unquote s true) = unquote s true
  ∧ (unquote s true ≠ "" → unquote s false ≠ "").
Proof.
  split; [apply unquote_strip |].
  split; [by rewrite unquote_strip, strip_idem | apply unquote_raw_nonempty].
Qed.

(** ** Blank lines and indentation *)

Lemma body_strip flags st l : body flags st (strip l) = body flags st l.
Proof. unfold body. by rewrite strip_idem. Qed.

Lemma body_blank flags st l : strip l = "" → body flags st l = Ok st.
Proof. unfold body. by intros ->. Qed.

Lemma loop_directives flags lines st :
  loop flags st (filter (fun l => l ≠ "") (strip <$> lines))
  = loop flags st lines.
Proof.
  revert st. induction lines as [|l ls IH]; intros st; [done |].
  rewrite fmap_cons. destruct (decide (strip l = "")) as [He | Hne].
  - rewrite filter_cons_False by (by intros ?). simpl.
    by rewrite body_blank.
  - rewrite filter_cons_True by done. simpl. rewrite body_strip.
    destruct (body flags st l); [apply IH | done].
Qed.

(** X2.  Only the trimmed, non-empty lines of a sheet count: two texts with
    the same such lines, in the same order, are parsed to the same result
    (the same dictionary, or the same error). *)
Theorem parse_cue_ignores_blanks flags (text text' : string) :
  directives text = directives text' →
  parse_cue flags text = parse_cue flags text'.
Proof.
  intros Heq. unfold parse_cue.
  rewrite <-(loop_directives flags (split nl text)).
  rewrite <-(loop_directives flags (split nl text')).
  unfold directives in Heq. by rewrite Heq.
Qed.

Lemma parse_cue_ignores_blanks_witness :
  parse_cue no_flags
    (sheet [""; "  TRACK 01 AUDIO  "; "   "; "TITLE One"; ""])
  = parse_cue no_flags (sheet ["TRACK 01 AUDIO"; "    TITLE One"]).
Proof. apply parse_cue_ignores_blanks. by vm_compute. Defined.

(** ** Errors *)

Lemma directive_error flags st line e :
  directive flags st line = Raise e →
  (re_match line = None
   ∧ e = AssertionError ("Line parse failed: " +:+ line))
  ∨ e = AssertionError ""
  ∨ (∃ m2, re_match line = Some ("TRACK", m2)
           ∧ int_max_str_digits < String.length m2 ∧ e = ValueError).
Proof.
  destruct (re_match line) as [[k m2]|] eqn:Hm.
  - destruct (String.eqb_spec k "TRACK") as [-> | Hk].
    + destruct (directive_track flags st _ _ Hm) as (n & _ & ->).
      destruct (Nat.ltb_spec int_max_str_digits (String.length m2)).
      * intros [= <-]. right. right. by exists m2.
      * destruct (_ =? _)%Z; [done |]. intros [= <-]. right. by left.
    + unfold directive. rewrite Hm.
      destruct (is_empty _); [done |].
      destruct (String.eqb_spec k "INDEX"); [done |].
      destruct (String.eqb_spec k "TRACK"); [done |].
      by destruct (String.eqb k "TITLE").
  - unfold directive. rewrite Hm. intros [= <-]. by left.
Qed.

Lemma loop_error flags lines st e :
  loop flags st lines = Raise e →
  e = AssertionError ""
  ∨ (∃ l, l ∈ lines ∧ strip l ≠ "" ∧ re_match (strip l) = None
          ∧ e = AssertionError ("Line parse failed: " +:+ strip l))
  ∨ (∃ l m2, l ∈ lines ∧ strip l ≠ ""
             ∧ re_match (strip l) = Some ("TRACK", m2)
             ∧ int_max_str_digits < String.length m2 ∧ e = ValueError).
Proof.
  revert st. induction lines as [|l ls IH]; intros st; [done |]. simpl.
  destruct (body flags st l) as [st1|e1] eqn:Hb; simpl.
  - intros [-> | [(l' & Hin & H) | (l' & m2 & Hin & H)]]%IH; [by left | |].
    + right. left. exists l'. split; [by right | done].
    + right. right. exists l', m2. split; [by right | done].
  - intros [= <-]. unfold body in Hb.
    destruct (is_empty (strip l)) eqn:He; [done |].
    apply is_empty_false in He.
    apply directive_error in Hb as [[Hm ->] | [-> | (m2 & Hm & Hlen & ->)]].
    + right. left. exists l. split; [by left | done].
    + by left.
    + right. right. exists l, m2. split; [by left | done].
Qed.

Lemma elem_of_directives l text :
  l ∈ directives text ↔ ∃ l0, l0 ∈ split nl text ∧ l = strip l0 ∧ l ≠ "".
Proof.
  unfold directives. rewrite list_elem_of_filter, list_elem_of_fmap.
  split.
  - intros (Hne & l0 & -> & Hin). by exists l0.
  - intros (l0 & Hin & -> & Hne). split; [done | by exists l0].
Qed.

(** A line on which the directive fails in every state ends the loop. *)
Lemma loop_fatal flags lines st l :
  l ∈ lines → strip l ≠ "" →
  (∀ st', raises (directive flags st' (strip l))) →
  raises (loop flags st lines).
Proof.
  intros Hin Hne Hm. revert st.
  induction lines as [|l' ls IH]; intros st; [by apply elem_of_nil in Hin |].
  simpl. destruct (body flags st l') as [st1|e1] eqn:Hb; simpl.
  - apply elem_of_cons in Hin as [-> | Hin]; [| by apply IH].
    unfold body in Hb. apply is_empty_false in Hne. rewrite Hne in Hb.
    destruct (Hm st) as [e He]. congruence.
  - by exists e1.
Qed.

(** X3.  [parse_cue] fails in three ways only: with the [AssertionError]
    of a line that matches no pattern, whose message ends with the trimmed
    line; with an [AssertionError] without message (a track number out of
    sequence, a track without title); and with the [ValueError] of [int] on
    a track number of more digits than the interpreter converts.  A sheet
    with a line that matches no pattern, or with such a track number, is
    never parsed. *)
Theorem parse_cue_errors flags (text : string) :
  (∀ e, parse_cue flags text = Raise e →
     e = AssertionError ""
     ∨ (∃ l, l ∈ directives text ∧ re_match l = None
             ∧ e = AssertionError ("Line parse failed: " +:+ l))
     ∨ (∃ l m2, l ∈ directives text ∧ re_match l = Some ("TRACK", m2)
                ∧ int_max_str_digits < String.length m2 ∧ e = ValueError))
  ∧ (∀ l, l ∈ directives text → re_match l = None →
       raises (parse_cue flags text))
  ∧ (∀ l m2, l ∈ directives text → re_match l = Some ("TRACK", m2) →
       int_max_str_digits < String.length m2 →
       raises (parse_cue flags text)).
Proof.
  assert (∀ l, l ∈ directives text →
            (∀ st, raises (directive flags st l)) →
            raises (parse_cue flags text)) as Hfatal.
  { intros l (l0 & Hin & -> & Hne)%elem_of_directives Hm.
    destruct (loop_fatal flags _ initial _ Hin Hne Hm) as [e He].
    exists e. unfold parse_cue. by rewrite He. }
  split; [| split].
  - intros e. unfold parse_cue.
    destruct (loop flags initial (split nl text)) as [st|e1] eqn:Hl; simpl.
    + unfold finish. destruct (check_titles _); [done |].
      intros [= <-]. by left.
    + intros [= <-].
      apply loop_error in Hl
        as [-> | [(l & Hin & Hne & Hm & ->)
                 | (l & m2 & Hin & Hne & Hm & Hlen & ->)]].
      * by left.
      * right. left. exists (strip l). split; [| done].
        apply elem_of_directives. by exists l.
      * right. right. exists (strip l), m2. split; [| done].
        apply elem_of_directives. by exists l.
  - intros l Hin Hm. apply (Hfatal l Hin). intros st.
    exists (AssertionError ("Line parse failed: " +:+ l)).
    unfold directive. by rewrite Hm.
  - intros l m2 Hin Hm Hlen. apply (Hfatal l Hin). intros st.
    exists ValueError.
    destruct (directive_track flags st _ _ Hm) as (n & _ & ->).
    by destruct (Nat.ltb_spec int_max_str_digits (String.length m2)); [| lia].
Qed.

Lemma parse_cue_errors_witness :
  parse_cue no_flags (sheet ["TITLE Album"; "track 01 audio"])
  = Raise (AssertionError "Line parse failed: track 01 audio").
Proof.
  destruct (proj1 (proj2 (parse_cue_errors no_flags
                     (sheet ["TITLE Album"; "track 01 audio"])))
              "track 01 audio") as [e He];
    [apply (bool_decide_eq_true_1 _); by vm_compute | by vm_compute |].
  rewrite He. revert He. by vm_compute.
Defined.

(** ** Invariants of the loop *)

Lemma loop_invariant (P : state → Prop) flags :
  (∀ st line st', wf st → P st → step flags st line st' → P st') →
  ∀ lines st st', wf st → P st → loop flags st lines = Ok st' → P st'.
Proof.
  intros Hstep lines. induction lines as [|l ls IH]; intros st st' Hwf HP.
  - by intros [= <-].
  - intros (st1 & Hb & Hl)%loop_cons.
    apply (IH st1); [by eapply wf_body | | done].
    apply body_Ok in Hb as [[_ ->] | [_ Hs]]; [done |]. by eapply Hstep.
Qed.

Lemma store_setitem_Some k v st r d :
  store (setitem k v st) !! r = Some d →
  ∃ d0, store st !! r = Some d0
        ∧ d = if decide (r = current_dict st) then <[k := v]> d0 else d0.
Proof.
  unfold setitem; simpl. destruct (decide (r = current_dict st)) as [-> | Hr].
  - rewrite list_lookup_alter_eq.
    destruct (store st !! current_dict st) as [d0|]; [| done].
    intros [= <-]. by exists d0.
  - rewrite list_lookup_alter_ne by done. intros ->. by exists d.
Qed.

Lemma store_new_track_Some st r d :
  store (new_track st) !! r = Some d →
  store st !! r = Some d ∨ d = delete "TITLE" (deref st disc_dict).
Proof.
  unfold new_track; simpl.
  intros [Hd | [_ Hd]]%lookup_app_Some; [by left | right].
  by apply list_lookup_singleton_Some in Hd as [_ <-].
Qed.

Lemma deref_lookup st r d : store st !! r = Some d → deref st r = d.
Proof. unfold deref. by intros ->. Qed.

Lemma deref_Some st r k v :
  deref st r !! k = Some v → ∃ d, store st !! r = Some d ∧ d !! k = Some v.
Proof.
  unfold deref. destruct (store st !! r) as [d|]; simpl; [by exists d |].
  by rewrite lookup_empty.
Qed.

Lemma no_key_fixed_step flags st line st' k :
  k = "INDEX" ∨ k = "TRACK" →
  step flags st line st' → no_key k st → no_key k st'.
Proof.
  intros Hk Hs Hno.
  destruct Hs as [| | |m2 Hm _|k' m2 Hm Hi Ht _ _];
    auto using no_key_new_track.
  - apply no_key_setitem; [by destruct Hk as [-> | ->] |].
    apply no_key_setitem; [by destruct Hk as [-> | ->] | done].
  - apply no_key_setitem; [by destruct Hk as [-> | ->] | done].
Qed.

Lemma values_nonempty_step flags st line st' :
  step flags st line st' → values_nonempty st → values_nonempty st'.
Proof.
  intros Hs Hv.
  assert (∀ k v st0, v ≠ "" → values_nonempty st0 →
            values_nonempty (setitem k v st0)) as Hset.
  { intros k v st0 Hne Hv0 r d k' v' (d0 & Hd0 & ->)%store_setitem_Some.
    destruct (decide _); [| by eapply Hv0].
    destruct (decide (k = k')) as [-> | Hk].
    - rewrite lookup_insert_eq. by intros [= <-].
    - rewrite lookup_insert_ne by done. by eapply Hv0. }
  destruct Hs as [| | |m2 Hm Hne|k m2 Hm _ _ _ Hne]; [done | done | | |].
  - intros r d k v [Hd | ->]%store_new_track_Some; [by eapply Hv |].
    intros [_ Hk]%lookup_delete_Some.
    apply deref_Some in Hk as (d0 & Hd0 & Hk). by eapply Hv.
  - apply Hset; [by apply unquote_raw_nonempty | by apply Hset].
  - by apply Hset.
Qed.

Lemma titles_paired_step flags st line st' :
  step flags st line st' → titles_paired st → titles_paired st'.
Proof.
  intros Hs Hp.
  destruct Hs as [| | |m2 Hm Hne|k m2 Hm _ _ Hk _]; [done | done | | |].
  - intros r d t [Hd | ->]%store_new_track_Some; [by eapply Hp |].
    by rewrite lookup_delete_eq.
  - intros r d t (d1 & (d0 & Hd0 & ->)%store_setitem_Some & ->)%store_setitem_Some.
    simpl. destruct (decide _); [| by eapply Hp].
    rewrite lookup_insert_ne, lookup_insert_eq by done. intros [= <-].
    exists (unquote m2 false). rewrite lookup_insert_eq.
    split; [done | apply unquote_strip].
  - intros r d t (d0 & Hd0 & ->)%store_setitem_Some.
    destruct (decide _); [| by eapply Hp].
    rewrite lookup_insert_ne by done. intros Ht.
    destruct (Hp _ _ _ Hd0 Ht) as (raw & Hraw & ->). exists raw.
    split; [| done]. rewrite lookup_insert_ne; [done |].
    intros ->. apply re_match_shape in Hm as [_ Hs%shape_no_underscore].
    by destruct Hs.
Qed.

Lemma tracks_inherit_step flags st line st' :
  wf st → step flags st line st' → tracks_inherit st → tracks_inherit st'.
Proof.
  intros Hwf Hs Hi.
  assert (∀ k v, tracks_inherit (setitem k v st)) as Hset.
  { intros k v r k' Hr Hk'. simpl in Hr.
    destruct (decide (track_list st = [])) as [He | Hne].
    { rewrite He in Hr. by apply elem_of_nil in Hr. }
    destruct (wf_tracks _ Hwf Hne) as (Hc & _ & _).
    rewrite (deref_setitem_ne _ _ _ disc_dict) by done. intros Hd.
    destruct (decide (r = current_dict st)) as [-> | Hr'].
    - rewrite deref_setitem_eq by done.
      destruct (decide (k = k')) as [-> | Hkk].
      + by rewrite lookup_insert_eq.
      + rewrite lookup_insert_ne by done. by apply Hi.
    - rewrite deref_setitem_ne by done. by apply Hi. }
  destruct Hs as [| | |m2 Hm Hne|k m2 Hm _ _ _ _]; [done | done | | |].
  - intros r k Hr Hk. simpl in Hr.
    assert (0 < length (store st)) as Hlen.
    { destruct Hwf as (n & -> & _). lia. }
    rewrite (deref_new_track_old _ disc_dict) by done. intros Hd.
    apply elem_of_app in Hr as [Hr | ->%list_elem_of_singleton].
    + rewrite deref_new_track_old by by eapply wf_track_ref. by apply Hi.
    + change (length (store st)) with (current_dict (new_track st)).
      rewrite deref_new_track_new. by rewrite lookup_delete_ne.
  - intros r k Hr Hk.
    pose proof (wf_setitem "TITLE" (unquote m2 true) st Hwf) as Hwf1.
    destruct (decide (track_list st = [])) as [He | Hne'].
    { simpl in Hr. rewrite He in Hr. by apply elem_of_nil in Hr. }
    destruct (wf_tracks _ Hwf Hne') as (Hc & _ & _).
    rewrite !(deref_setitem_ne _ _ _ disc_dict) by done. intros Hd.
    simpl in Hr. destruct (decide (r = current_dict st)) as [-> | Hr'].
    + rewrite !deref_setitem_eq by done.
      destruct (decide (k = "TITLE_RAW")) as [-> | Hkk].
      * by rewrite lookup_insert_eq.
      * rewrite !lookup_insert_ne by done. by apply Hi.
    + rewrite !deref_setitem_ne by done. by apply Hi.
  - apply Hset.
Qed.

(** ** The dictionaries of a parsed sheet *)

Lemma disc_in_store st :
  wf st → store st !! disc_dict = Some (deref st disc_dict).
Proof.
  intros (n & Hlen & _). unfold deref.
  destruct (lookup_lt_is_Some_2 (store st) disc_dict) as [d ->]; [| done].
  unfold disc_dict. lia.
Qed.

Lemma track_in_store st t :
  wf st → t ∈ tracks st →
  ∃ r, r ∈ track_list st ∧ store st !! r = Some t ∧ t = deref st r.
Proof.
  intros Hwf (r & -> & Hr)%list_elem_of_fmap. exists r. split; [done |].
  split; [| done]. unfold deref.
  destruct (lookup_lt_is_Some_2 (store st) r) as [d ->]; [| done].
  by eapply wf_track_ref.
Qed.

(** What [parse_cue] returns, read back: the state at the end of the loop,
    whose disc dictionary gives the texts of the result and whose tracks are
    under ["TRACK_LIST"]. *)
Lemma parse_cue_result flags text d :
  parse_cue flags text = Ok d →
  ∃ st, loop flags initial (split nl text) = Ok st ∧ wf st
    ∧ check_titles (tracks st) = true
    ∧ d !! "TRACK_LIST" = Some (VList (tracks st))
    ∧ ∀ k, k ≠ "TRACK_LIST" → d !! k = VStr <$> deref st disc_dict !! k.
Proof.
  intros (st & Hl & Hc & ->)%parse_cue_Ok. exists st.
  split; [done |]. split; [by eapply wf_loop, wf_initial |].
  split; [done |]. split; [apply lookup_insert_eq |].
  intros k Hk. by rewrite lookup_insert_ne, lookup_fmap.
Qed.

(** X4.  An [INDEX] directive changes nothing, and no dictionary of a
    parsed sheet, the disc's or a track's, has the key ["INDEX"] or the key
    ["TRACK"]. *)
Theorem index_and_track_not_stored flags (text : string)
  (d : gmap string value) :
  parse_cue flags text = Ok d →
  (∀ st line m2, re_match line = Some ("INDEX", m2) →
     directive flags st line = Ok st)
  ∧ ∀ k, k = "INDEX" ∨ k = "TRACK" →
      d !! k = None
      ∧ ∀ ts t, d !! "TRACK_LIST" = Some (VList ts) → t ∈ ts →
          t !! k = None.
Proof.
  intros (st & Hl & Hwf & _ & Htl & Hd)%parse_cue_result. split.
  { intros st0 line m2 Hm. apply directive_Ok. by eapply step_index. }
  intros k Hk.
  assert (no_key k st) as Hno.
  { apply (loop_invariant (no_key k) flags) with (split nl text) initial;
      [| apply wf_initial | apply no_key_initial | done].
    intros st0 line st1 _ Hno Hs. by eapply no_key_fixed_step. }
  split.
  - rewrite Hd by (by destruct Hk as [-> | ->]).
    by rewrite (no_key_deref k).
  - intros ts t Hts Hin. rewrite Htl in Hts. injection Hts as <-.
    apply (track_in_store _ _ Hwf) in Hin as (r & _ & Hr & _).
    by eapply Hno.
Qed.

Lemma index_and_track_not_stored_witness :
  let d := parsed (parse_cue no_flags
                     (sheet ["TRACK 01 AUDIO"; "TITLE One";
                             "INDEX 01 00:00:00"])) in
  d !! "INDEX" = None
  ∧ ∃ t, d !! "TRACK_LIST" = Some (VList [t]) ∧ t !! "TITLE" = Some "One"
         ∧ t !! "INDEX" = None ∧ t !! "TRACK" = None.
Proof.
  intros d.
  destruct (index_and_track_not_stored no_flags
              (sheet ["TRACK 01 AUDIO"; "TITLE One"; "INDEX 01 00:00:00"]) d)
    as [_ Hk]; [by vm_compute |].
  split; [apply (Hk "INDEX"); by left |].
  exists (<["TITLE_RAW" := "One"]> (<["TITLE" := "One"]> ∅)).
  assert (d !! "TRACK_LIST"
          = Some (VList [<["TITLE_RAW" := "One"]> (<["TITLE" := "One"]> ∅)]))
    as Hd by by vm_compute.
  split; [exact Hd |]. split; [by vm_compute |]. split.
  - apply (proj2 (Hk "INDEX" (or_introl eq_refl)) _ _ Hd). by left.
  - apply (proj2 (Hk "TRACK" (or_intror eq_refl)) _ _ Hd). by left.
Defined.

(** The values of the tracks of a parsed sheet are not empty. *)
Lemma parsed_values_nonempty_aux flags text d :
  parse_cue flags text = Ok d →
  ∀ ts t k, d !! "TRACK_LIST" = Some (VList ts) → t ∈ ts → t !! k ≠ Some "".
Proof.
  intros (st & Hl & Hwf & _ & Htl & Hd)%parse_cue_result.
  assert (values_nonempty st) as Hv.
  { apply (loop_invariant values_nonempty flags)
      with (split nl text) initial; [| apply wf_initial | | done].
    - intros st0 line st1 _ Hv Hs. by eapply values_nonempty_step.
    - intros [|r] d0 k v; simpl; [| done]. intros [= <-].
      by rewrite lookup_empty. }
  intros ts t k Hts Hin Hk. rewrite Htl in Hts. injection Hts as <-.
  apply (track_in_store _ _ Hwf) in Hin as (r & _ & Hr & _).
  by eapply Hv.
Qed.

(** X5.  No value of a parsed sheet is an empty text, in the disc
    dictionary and in every track dictionary. *)
Theorem parsed_values_nonempty flags (text : string)
  (d : gmap string value) :
  parse_cue flags text = Ok d →
  (∀ k, d !! k ≠ Some (VStr ""))
  ∧ ∀ ts t k, d !! "TRACK_LIST" = Some (VList ts) → t ∈ ts →
      t !! k ≠ Some "".
Proof.
  intros (st & Hl & Hwf & _ & Htl & Hd)%parse_cue_result.
  assert (values_nonempty st) as Hv.
  { apply (loop_invariant values_nonempty flags)
      with (split nl text) initial; [| apply wf_initial | | done].
    - intros st0 line st1 _ Hv Hs. by eapply values_nonempty_step.
    - intros [|r] d0 k v; simpl; [| done]. intros [= <-].
      by rewrite lookup_empty. }
  split.
  - intros k. destruct (decide (k = "TRACK_LIST")) as [-> | Hk].
    { by rewrite Htl. }
    rewrite Hd by done.
    destruct (deref st disc_dict !! k) as [v|] eqn:Hkv; [| done].
    simpl. intros [= ->]. by apply (Hv _ _ _ _ (disc_in_store _ Hwf) Hkv).
  - intros ts t k Hts Hin Hk. rewrite Htl in Hts. injection Hts as <-.
    apply (track_in_store _ _ Hwf) in Hin as (r & _ & Hr & _).
    by eapply Hv.
Qed.

Lemma parsed_values_nonempty_witness :
  let d := parsed (parse_cue no_flags sheet_performers) in
  d !! "PERFORMER" = Some (VStr "A") ∧ d !! "PERFORMER" ≠ Some (VStr "").
Proof.
  intros d. split; [by vm_compute |].
  apply (parsed_values_nonempty no_flags sheet_performers d). by vm_compute.
Defined.

(** X6.  Every track of a parsed sheet has a ["TITLE"] and a
    ["TITLE_RAW"], and the title is the trimmed form of the raw title and is
    not empty; the same holds of the disc when it has a title. *)
Theorem parsed_titles_paired flags (text : string) (d : gmap string value) :
  parse_cue flags text = Ok d →
  (∀ title, d !! "TITLE" = Some (VStr title) →
     ∃ raw, d !! "TITLE_RAW" = Some (VStr raw) ∧ title = strip raw)
  ∧ ∀ ts t, d !! "TRACK_LIST" = Some (VList ts) → t ∈ ts →
      ∃ title raw, t !! "TITLE" = Some title ∧ t !! "TITLE_RAW" = Some raw
        ∧ title = strip raw ∧ title ≠ "".
Proof.
  intros Hp. pose proof (parsed_values_nonempty_aux flags text d Hp) as Hne.
  destruct (parse_cue_result _ _ _ Hp) as (st & Hl & Hwf & Hc & Htl & Hd).
  assert (titles_paired st) as Hpair.
  { apply (loop_invariant titles_paired flags)
      with (split nl text) initial; [| apply wf_initial | | done].
    - intros st0 line st1 _ Hv Hs. by eapply titles_paired_step.
    - intros [|r] d0 t; simpl; [| done]. intros [= <-].
      by rewrite lookup_empty. }
  split.
  - intros title. rewrite !Hd by done.
    destruct (deref st disc_dict !! "TITLE") as [t|] eqn:Ht; [| done].
    simpl. intros [= ->].
    destruct (Hpair _ _ _ (disc_in_store _ Hwf) Ht) as (raw & -> & ->).
    by exists raw.
  - intros ts t Hts Hin. rewrite Htl in Hts. injection Hts as <-.
    pose proof (proj1 (check_titles_spec _) Hc _ Hin) as [title Ht].
    destruct (track_in_store _ _ Hwf Hin) as (r & _ & Hr & _).
    destruct (Hpair _ _ _ Hr Ht) as (raw & Hraw & ->).
    exists (strip raw), raw. split; [done |]. split; [done |].
    split; [done |]. intros He. apply (Hne (tracks st) t "TITLE"); [done.. |].
    by rewrite Ht, He.
Qed.

Lemma parsed_titles_paired_witness :
  let d := parsed (parse_cue no_flags
                     (sheet ["TRACK 01 AUDIO"; "TITLE " +:+ quoted " One "])) in
  ∃ t, d !! "TRACK_LIST" = Some (VList [t])
       ∧ t !! "TITLE" = Some "One" ∧ t !! "TITLE_RAW" = Some " One ".
Proof.
  intros d.
  pose (t := <["TITLE_RAW" := " One "]> (<["TITLE" := "One"]> ∅)
             : gmap string string).
  assert (d !! "TRACK_LIST" = Some (VList [t])) as Hd by by vm_compute.
  destruct (parsed_titles_paired no_flags
              (sheet ["TRACK 01 AUDIO"; "TITLE " +:+ quoted " One "]) d)
    as [_ Ht]; [by vm_compute |].
  destruct (Ht [t] t Hd) as (title & raw & Htitle & Hraw & _ & _); [by left |].
  exists t. split; [exact Hd |]. split; by vm_compute.
Defined.

(** X7.  Every key of the disc dictionary of a parsed sheet, but ["TITLE"],
    is a key of every track dictionary: what the disc declares before the
    first track, each track has, with the disc's value or its own. *)
Theorem tracks_have_disc_keys flags (text : string) (d : gmap string value) :
  parse_cue flags text = Ok d →
  ∀ k ts t, k ≠ "TITLE" → k ≠ "TRACK_LIST" → is_Some (d !! k) →
    d !! "TRACK_LIST" = Some (VList ts) → t ∈ ts → is_Some (t !! k).
Proof.
  intros (st & Hl & Hwf & _ & Htl & Hd)%parse_cue_result.
  assert (tracks_inherit st) as Hi.
  { apply (loop_invariant tracks_inherit flags)
      with (split nl text) initial; [| apply wf_initial | | done].
    - intros st0 line st1 Hwf0 Hv Hs. by eapply tracks_inherit_step.
    - intros r k Hr. by apply elem_of_nil in Hr. }
  intros k ts t Hk Hk' Hdk Hts Hin. rewrite Htl in Hts. injection Hts as <-.
  destruct (track_in_store _ _ Hwf Hin) as (r & Hr & _ & ->).
  apply Hi; [done | done |]. rewrite Hd in Hdk by done.
  by apply fmap_is_Some in Hdk.
Qed.

Lemma tracks_have_disc_keys_witness :
  let d := parsed (parse_cue no_flags sheet_performers) in
  ∃ ts, d !! "TRACK_LIST" = Some (VList ts)
        ∧ length ts = 2
        ∧ Forall (fun t => is_Some (t !! "PERFORMER")) ts.
Proof.
  intros d.
  destruct (d !! "TRACK_LIST") as [[s|ts]|] eqn:Hts;
    [by vm_compute in Hts | | by vm_compute in Hts].
  exists ts. split; [reflexivity |].
  split; [revert Hts; vm_compute; by intros [= <-] |].
  apply Forall_forall. intros t Ht.
  apply (tracks_have_disc_keys no_flags sheet_performers d
           ltac:(by vm_compute) "PERFORMER" ts t);
    [done | done | by exists (VStr "A") | exact Hts | exact Ht].
Defined.

(** ** The performer override *)

Lemma wf_no_tracks st : wf st → (track_list st = [] ↔ current_dict st = disc_dict).
Proof.
  intros (n & _ & -> & ->). unfold disc_dict. split.
  - by destruct n.
  - by intros ->.
Qed.

Lemma disc_performer_step flags o st line st' :
  wf st → disc_performer_override flags = Some o →
  step flags st line st' → disc_performer_is o st → disc_performer_is o st'.
Proof.
  intros Hwf Ho Hs Hp. pose proof (wf_no_tracks _ Hwf) as Hnt.
  assert (0 < length (store st)) as Hlen.
  { destruct Hwf as (n & -> & _). lia. }
  destruct Hs as [| | |m2 Hm Hne|k m2 Hm _ _ _ _]; [done | done | | |].
  - intros v. rewrite deref_new_track_old by done. apply Hp.
  - intros v. destruct (decide (current_dict st = disc_dict)) as [Hc | Hc].
    + rewrite !deref_setitem_eq by auto using wf_setitem.
      rewrite !lookup_insert_ne by done. apply Hp.
    + rewrite !deref_setitem_ne by (simpl; congruence). apply Hp.
  - intros v. destruct (decide (current_dict st = disc_dict)) as [Hc | Hc].
    + rewrite deref_setitem_eq by done.
      destruct (decide (k = "PERFORMER")) as [-> | Hk].
      * rewrite lookup_insert_eq. intros [= <-].
        unfold value_of. rewrite Ho. apply Hnt in Hc. by rewrite Hc.
      * rewrite lookup_insert_ne by done. apply Hp.
    + rewrite deref_setitem_ne by congruence. apply Hp.
Qed.

(** X8.  With a performer override [o], a [PERFORMER] directive read before
    the first track stores [o] whatever its own value, or is skipped when
    [o] is the empty text; once a track exists it stores its own value.  So
    the disc performer of a parsed sheet, when there is one, is [o]. *)
Theorem performer_override_applies flags (o : string) :
  disc_performer_override flags = Some o →
  (∀ st line m2, wf st → re_match line = Some ("PERFORMER", m2) →
     (track_list st = [] →
      directive flags st line
      = Ok (if decide (o = "") then st else setitem "PERFORMER" o st))
     ∧ (track_list st ≠ [] → unquote m2 true ≠ "" →
        directive flags st line
        = Ok (setitem "PERFORMER" (unquote m2 true) st)))
  ∧ (∀ text d v, parse_cue flags text = Ok d →
       d !! "PERFORMER" = Some v → v = VStr o).
Proof.
  intros Ho. split.
  - intros st line m2 Hwf Hm. unfold directive. rewrite Hm.
    unfold value_of. rewrite Ho. simpl. split.
    + intros ->. simpl. destruct (decide (o = "")) as [-> | Hne]; [done |].
      by apply is_empty_false in Hne as ->.
    + intros Hne Hv. destruct (track_list st) as [|r rs] eqn:Ht; [done |].
      simpl. by apply is_empty_false in Hv as ->.
  - intros text d v (st & Hl & Hwf & _ & _ & Hd)%parse_cue_result.
    assert (disc_performer_is o st) as Hp.
    { apply (loop_invariant (disc_performer_is o) flags)
        with (split nl text) initial; [| apply wf_initial | | done].
      - intros st0 line st1 Hwf0 Hv Hs. by eapply disc_performer_step.
      - intros v0. unfold deref; simpl. by rewrite lookup_empty. }
    rewrite Hd by done.
    destruct (deref st disc_dict !! "PERFORMER") as [p|] eqn:Hperf; [| done].
    simpl. intros [= <-]. by rewrite (Hp p).
Qed.

Lemma performer_override_applies_witness :
  performers (parse_cue (override_flags "Various") sheet_performers)
  = Ok (Some (VStr "Various"), [Some "B"; Some "Various"])
  ∧ ∀ v, parsed (parse_cue (override_flags "Various") sheet_performers)
           !! "PERFORMER" = Some v → v = VStr "Various".
Proof.
  split; [by vm_compute |]. intros v.
  apply (proj2 (performer_override_applies (override_flags "Various")
                  "Various" eq_refl) sheet_performers).
  by vm_compute.
Defined.

(** * The encoder command *)

Import Cmd.

(** ** Texts of digits and file names *)

Lemma all_append p s t : all p (s +:+ t) = all p s && all p t.
Proof.
  induction s as [|c s IH]; [done |].
  rewrite app_cons. simpl. by rewrite IH, andb_assoc.
Qed.

Lemma all_init p s : all p s = true → all p (init s) = true.
Proof.
  induction s as [|c s IH]; [done |]. simpl.
  intros [Hc Hs]%andb_prop. destruct s as [|c' s]; [done |].
  change (all p (String c (init (String c' s))) = true). simpl.
  rewrite Hc. by apply IH.
Qed.

Lemma last_None s : last s = None ↔ s = "".
Proof.
  induction s as [|c s IH]; [done |]. simpl.
  destruct s as [|c' s]; [done |]. rewrite IH. done.
Qed.

Lemma uint_digits d : all is_digit (NilEmpty.string_of_uint d) = true.
Proof. induction d; simpl; by rewrite ?IHd. Qed.

Lemma str_digits z : (0 ≤ z)%Z → all is_digit (str z) = true ∧ str z ≠ "".
Proof.
  intros Hz. unfold str. destruct z as [|p|p]; [done | | lia]. simpl.
  unfold NilZero.string_of_uint.
  destruct (Pos.to_uint p) eqn:Hp; [done | ..];
    (split; [rewrite <-Hp at 1 | done]);
    (etrans; [| apply (uint_digits (Pos.to_uint p))]); by rewrite Hp.
Qed.

Lemma zeros_digits n : all is_digit (String.concat "" (repeat "0" n)) = true.
Proof.
  induction n as [|n IH]; [done |]. simpl.
  destruct (repeat "0" n) as [|z zs] eqn:Hr; [done |].
  rewrite <-Hr in *. rewrite app_nil, app_cons, app_nil. simpl. apply IH.
Qed.

Lemma zfill_digits w s :
  all is_digit s = true → s ≠ "" →
  all is_digit (zfill w s) = true ∧ zfill w s ≠ "".
Proof.
  intros Hs Hne. unfold zfill. destruct s as [|c s]; [done |].
  simpl in Hs. apply andb_prop in Hs as [Hc Hs].
  assert (Ascii.eqb c "+" || Ascii.eqb c "-" = false) as ->.
  { by destruct c as [[] [] [] [] [] [] [] []]. }
  split.
  - rewrite all_append, zeros_digits. simpl. by rewrite Hc, Hs.
  - by destruct (String.concat _ _).
Qed.

Lemma digits_no_slash s : all is_digit s = true → no_slash s.
Proof.
  apply all_impl. by intros [[] [] [] [] [] [] [] []].
Qed.

Lemma replace_no_slash s : no_slash (replace "/" "-" s).
Proof.
  unfold no_slash. induction s as [|c s IH]; [done |].
  cbn [replace all]. rewrite IH, andb_true_r.
  destruct (Ascii.eqb_spec c "/") as [-> | Hc]; [done |].
  by apply negb_true_iff, Ascii.eqb_neq.
Qed.

Lemma fname_stem_no_slash i title :
  (0 ≤ i)%Z → no_slash (fname_stem i title) ∧ fname_stem i title ≠ "".
Proof.
  intros Hi. destruct (str_digits i Hi) as [Hd Hne].
  destruct (zfill_digits 2 _ Hd Hne) as [Hz Hzne]. unfold fname_stem. split.
  - unfold no_slash. rewrite !all_append.
    rewrite (digits_no_slash _ Hz), (replace_no_slash title). done.
  - by destruct (zfill 2 (str i)).
Qed.

Lemma drop_final_dot_Done fname :
  fname ≠ "" →
  ∃ stem, drop_final_dot fname = Done stem
    ∧ (stem = fname ∨ stem = init fname)
    ∧ (last fname ≠ Some "."%char → stem = fname)
    ∧ (last fname = Some "."%char → stem = init fname).
Proof.
  intros Hne. unfold drop_final_dot.
  destruct (last fname) as [c|] eqn:Hl; [| by apply last_None in Hl].
  destruct (Ascii.eqb_spec c ".") as [-> | Hc].
  - exists (init fname). split; [done |]. split; [by right |]. by split.
  - exists fname. split; [done |]. split; [by left |].
    split; [done |]. by intros [= ->].
Qed.

Lemma drop_final_dot_no_slash fname stem :
  no_slash fname → drop_final_dot fname = Done stem → no_slash stem.
Proof.
  unfold drop_final_dot. destruct (last fname) as [c|]; [| done].
  intros Hf [= <-]. destruct (Ascii.eqb c "."); [| done]. by apply all_init.
Qed.

(** ** The command of a track *)

Lemma lookup_key_Done {V} (m : gmap string V) k v :
  lookup_key m k = Done v ↔ m !! k = Some v.
Proof.
  unfold lookup_key. destruct (m !! k) as [v'|].
  - split; by intros [= ->].
  - done.
Qed.

Lemma getitem_in_range {A} (l : list A) (i : Z) :
  (0 ≤ i < Z.of_nat (length l))%Z →
  ∃ x, getitem l i = Done x ∧ l !! Z.to_nat i = Some x.
Proof.
  intros Hi. unfold getitem.
  destruct (Z.ltb_spec i 0) as [? | _]; [lia |].
  destruct (Z.ltb_spec i 0) as [? | _]; [lia |].
  destruct (lookup_lt_is_Some_2 l (Z.to_nat i)) as [x Hx]; [lia |].
  exists x. by rewrite Hx.
Qed.

(** The steps of [fdkaac_cmd] that a result went through. *)
Lemma fdkaac_cmd_Done cue_dict track_index cmd :
  fdkaac_cmd cue_dict track_index = Done cmd →
  ∃ track_dict title_raw title stem_in stem_out,
    track_at cue_dict track_index = Done track_dict
    ∧ track_dict !! "TITLE_RAW" = Some title_raw
    ∧ track_dict !! "TITLE" = Some title
    ∧ is_Some (track_dict !! "PERFORMER")
    ∧ is_Some (cue_dict !! "TITLE") ∧ is_Some (cue_dict !! "PERFORMER")
    ∧ drop_final_dot (fname_stem track_index title_raw) = Done stem_in
    ∧ drop_final_dot (fname_stem track_index title) = Done stem_out
    ∧ cmd !! 7 = Some (VStr (stem_out +:+ ".m4a"))
    ∧ List.last cmd (VStr "") = VStr ("wav/" +:+ stem_in +:+ ".wav").
Proof.
  unfold fdkaac_cmd.
  destruct (track_at cue_dict track_index) as [t|]; [simpl | done].
  destruct (lookup_key t "TITLE_RAW") as [raw|] eqn:Hraw; [simpl | done].
  destruct (lookup_key t "TITLE") as [title|] eqn:Htitle; [simpl | done].
  destruct (drop_final_dot (fname_stem track_index raw)) as [stem_in|] eqn:Hin;
    [simpl | done].
  destruct (drop_final_dot (fname_stem track_index title)) as [stem_out|]
    eqn:Hout; [simpl | done].
  destruct (lookup_key t "PERFORMER") as [perf|] eqn:Hperf; [simpl | done].
  destruct (lookup_key cue_dict "TITLE") as [album|] eqn:Halbum;
    [simpl | done].
  apply lookup_key_Done in Hraw, Htitle, Hperf, Halbum.
  intros Hcmd.
  exists t, raw, title, stem_in, stem_out.
  split; [done |]. split; [done |]. split; [done |]. split; [by eexists |].
  split; [by eexists |]. revert Hcmd.
  destruct (decide (is_Some (cue_dict !! "REM DATE"))) as [[date Hd] | _];
    [rewrite (proj2 (lookup_key_Done _ _ _) Hd) |]; simpl;
    (destruct (decide (is_Some (cue_dict !! "REM GENRE"))) as [[g Hg] | _];
     [rewrite (proj2 (lookup_key_Done _ _ _) Hg) |]); simpl;
    (destruct (lookup_key cue_dict "PERFORMER") as [artist|] eqn:Hartist;
     [simpl | done]);
    (destruct (track_count cue_dict) as [n|]; [simpl | done]);
    intros [= <-]; apply lookup_key_Done in Hartist;
    (split; [by eexists |]); done.
Qed.

Lemma lookup_key_Fail {V} (d : gmap string V) key :
  d !! key = None → lookup_key d key = Fail (Exn (KeyError key)).
Proof. unfold lookup_key. by intros ->. Qed.

Lemma fname_stem_nonempty i title : fname_stem i title ≠ "".
Proof. unfold fname_stem. by destruct (zfill 2 (str i)). Qed.

(** X9.  In a command that [fdkaac_cmd] returns for an index that is not
    negative, the name of the output file (after [-o]) and the name of the
    input file (after [wav/], the last argument) have no slash: they are the
    index on two digits or more, a dot and the title, respectively the raw
    title, of the track with [-] for every slash, without the last
    character when it is a dot, and then [.m4a], respectively [.wav]. *)
Theorem fdkaac_cmd_file_names (cue_dict : gmap string value)
  (track_index : Z) (cmd : list value) :
  (0 ≤ track_index)%Z →
  fdkaac_cmd cue_dict track_index = Done cmd →
  ∃ track_dict title title_raw stem_out stem_in,
    track_at cue_dict track_index = Done track_dict
    ∧ track_dict !! "TITLE" = Some title
    ∧ track_dict !! "TITLE_RAW" = Some title_raw
    ∧ cmd !! 7 = Some (VStr (stem_out +:+ ".m4a"))
    ∧ List.last cmd (VStr "") = VStr ("wav/" +:+ stem_in +:+ ".wav")
    ∧ no_slash stem_out ∧ no_slash stem_in
    ∧ stem_out = (let f := fname_stem track_index title in
                  if decide (last f = Some "."%char) then init f else f)
    ∧ stem_in = (let f := fname_stem track_index title_raw in
                 if decide (last f = Some "."%char) then init f else f).
Proof.
  intros Hi (t & raw & title & stem_in & stem_out & Ht & Hraw & Htitle & _ & _
             & _ & Hin & Hout & H7 & Hlast)%fdkaac_cmd_Done.
  exists t, title, raw, stem_out, stem_in.
  do 5 (split; [done |]).
  split; [eapply drop_final_dot_no_slash, Hout; by apply fname_stem_no_slash |].
  split; [eapply drop_final_dot_no_slash, Hin; by apply fname_stem_no_slash |].
  split.
  - destruct (drop_final_dot_Done _ (fname_stem_nonempty track_index title))
      as (s & Hs & _ & Hkeep & Hdrop).
    rewrite Hs in Hout. injection Hout as <-. simpl.
    destruct (decide _) as [Hd | Hd]; [by apply Hdrop | by apply Hkeep].
  - destruct (drop_final_dot_Done _ (fname_stem_nonempty track_index raw))
      as (s & Hs & _ & Hkeep & Hdrop).
    rewrite Hs in Hin. injection Hin as <-. simpl.
    destruct (decide _) as [Hd | Hd]; [by apply Hdrop | by apply Hkeep].
Qed.

Lemma fdkaac_cmd_file_names_witness :
  let d := parsed (parse_cue no_flags sheet_slash) in
  ∃ cmd, fdkaac_cmd d 1 = Done cmd
    ∧ cmd !! 7 = Some (VStr "01.Either-Or.m4a")
    ∧ List.last cmd (VStr "") = VStr "wav/01.Either-Or.wav".
Proof.
  intros d.
  destruct (fdkaac_cmd d 1) as [cmd|] eqn:Hcmd; [| by vm_compute in Hcmd].
  exists cmd. split; [reflexivity |].
  destruct (fdkaac_cmd_file_names d 1 cmd) as (t & title & raw & out & inp
    & Ht & Htitle & Hraw & H7 & Hlast & _ & _ & Hout & Hin);
    [done | exact Hcmd |].
  assert (t = <["TITLE_RAW" := "Either/Or."]>
                (<["TITLE" := "Either/Or."]>
                   (<["PERFORMER" := "Someone"]> ∅))) as ->.
  { revert Ht. vm_compute. by intros [= <-]. }
  assert (title = "Either/Or.") as -> by (revert Htitle; vm_compute; congruence).
  assert (raw = "Either/Or.") as -> by (revert Hraw; vm_compute; congruence).
  rewrite H7, Hlast, Hout, Hin. by vm_compute.
Defined.

(** The state at the end of the loop of a parse that succeeds, with what the
    loop keeps true. *)
Lemma parse_cue_invariants flags text d :
  parse_cue flags text = Ok d →
  ∃ st, wf st
    ∧ check_titles (tracks st) = true
    ∧ d !! "TRACK_LIST" = Some (VList (tracks st))
    ∧ (∀ k, k ≠ "TRACK_LIST" → d !! k = VStr <$> deref st disc_dict !! k)
    ∧ titles_paired st ∧ tracks_inherit st.
Proof.
  intros (st & Hl & Hwf & Hc & Htl & Hd)%parse_cue_result. exists st.
  do 4 (split; [done |]). split.
  - apply (loop_invariant titles_paired flags)
      with (split nl text) initial; [| apply wf_initial | | done].
    + intros st0 line st1 _ Hv Hs. by eapply titles_paired_step.
    + intros [|r] d0 t; simpl; [| done]. intros [= <-].
      by rewrite lookup_empty.
  - apply (loop_invariant tracks_inherit flags)
      with (split nl text) initial; [| apply wf_initial | | done].
    + intros st0 line st1 Hwf0 Hv Hs. by eapply tracks_inherit_step.
    + intros r k Hr. by apply elem_of_nil in Hr.
Qed.

(** [fdkaac_cmd] needs five entries and no more. *)
Lemma fdkaac_cmd_succeeds cue_dict track_index t :
  track_at cue_dict track_index = Done t →
  is_Some (t !! "TITLE_RAW") → is_Some (t !! "TITLE") →
  is_Some (t !! "PERFORMER") →
  is_Some (cue_dict !! "TITLE") → is_Some (cue_dict !! "PERFORMER") →
  ∃ cmd, fdkaac_cmd cue_dict track_index = Done cmd.
Proof.
  intros Ht [raw Hraw] [title Htitle] [perf Hperf] [album Halbum]
    [artist Hartist].
  assert (∃ n, track_count cue_dict = Done n) as [n Hn].
  { unfold track_at, track_count in *.
    destruct (lookup_key cue_dict "TRACK_LIST") as [[s|l]|]; simpl in *;
      [by eexists | by eexists | done]. }
  destruct (drop_final_dot_Done _ (fname_stem_nonempty track_index raw))
    as (stem_in & Hin & _).
  destruct (drop_final_dot_Done _ (fname_stem_nonempty track_index title))
    as (stem_out & Hout & _).
  apply lookup_key_Done in Hraw, Htitle, Hperf, Halbum, Hartist.
  unfold fdkaac_cmd. rewrite Ht. simpl. rewrite Hraw. simpl.
  rewrite Htitle. simpl. rewrite Hin. simpl. rewrite Hout. simpl.
  rewrite Hperf. simpl. rewrite Halbum. simpl.
  destruct (decide (is_Some (cue_dict !! "REM DATE"))) as [[date Hd] | _];
    [rewrite (proj2 (lookup_key_Done _ _ _) Hd) |]; simpl;
    (destruct (decide (is_Some (cue_dict !! "REM GENRE"))) as [[g Hg] | _];
     [rewrite (proj2 (lookup_key_Done _ _ _) Hg) |]); simpl;
    rewrite Hartist; simpl; rewrite Hn; simpl; by eexists.
Qed.

(** X10.  For a parsed sheet and the number of one of its tracks,
    [fdkaac_cmd] returns a command exactly when the disc has a title and a
    performer: every track then has the entries that the command reads.
    Without one of the two it ends in the [KeyError] of this key. *)
Theorem fdkaac_cmd_on_parsed flags (text : string) (d : gmap string value)
  (ts : list (gmap string string)) (track_index : Z) :
  parse_cue flags text = Ok d →
  d !! "TRACK_LIST" = Some (VList ts) →
  (1 ≤ track_index ≤ Z.of_nat (length ts))%Z →
  ((∃ cmd, fdkaac_cmd d track_index = Done cmd) ↔
   is_Some (d !! "TITLE") ∧ is_Some (d !! "PERFORMER"))
  ∧ (d !! "TITLE" = None ∨ d !! "PERFORMER" = None →
     fdkaac_cmd d track_index = Fail (Exn (KeyError "TITLE"))
     ∨ fdkaac_cmd d track_index = Fail (Exn (KeyError "PERFORMER"))).
Proof.
  intros (st & Hwf & Hc & Htl & Hd & Hpair & Hinh)%parse_cue_invariants
    Hts Hi.
  rewrite Htl in Hts. injection Hts as <-.
  destruct (getitem_in_range (tracks st) (track_index - 1)) as (t & Hg & Ht);
    [lia |].
  assert (track_at d track_index = Done t) as Hat.
  { unfold track_at. by rewrite (proj2 (lookup_key_Done _ _ _) Htl). }
  assert (t ∈ tracks st) as Hin by (by eapply list_elem_of_lookup_2).
  destruct (proj1 (check_titles_spec _) Hc _ Hin) as [title Htitle].
  destruct (track_in_store _ _ Hwf Hin) as (r & Hr & Hstore & Hderef).
  destruct (Hpair _ _ _ Hstore Htitle) as (raw & Hraw & _).
  split; [split |].
  - intros [cmd Hcmd]. apply fdkaac_cmd_Done in Hcmd.
    destruct Hcmd as (? & ? & ? & ? & ? & ? & ? & ? & ? & ? & ? & ?). done.
  - intros [Halbum Hartist].
    apply (fdkaac_cmd_succeeds d track_index t); [done | by eexists.. | | |];
      [| done | done].
    rewrite Hderef. apply Hinh; [done | done |].
    rewrite Hd in Hartist by done. by apply fmap_is_Some in Hartist.
  - intros Hmiss.
    assert (∃ k, (k = "TITLE" ∨ k = "PERFORMER")
                 ∧ fdkaac_cmd d track_index = Fail (Exn (KeyError k)))
      as (k & [-> | ->] & Hk); [| by left | by right].
    unfold fdkaac_cmd. rewrite Hat. simpl.
    rewrite (proj2 (lookup_key_Done _ _ _) Hraw). simpl.
    rewrite (proj2 (lookup_key_Done _ _ _) Htitle). simpl.
    destruct (drop_final_dot_Done _ (fname_stem_nonempty track_index raw))
      as (stem_in & -> & _).
    destruct (drop_final_dot_Done _ (fname_stem_nonempty track_index title))
      as (stem_out & -> & _). simpl.
    destruct (t !! "PERFORMER") as [perf|] eqn:Hperf;
      [rewrite (proj2 (lookup_key_Done _ _ _) Hperf)
      | rewrite (lookup_key_Fail _ _ Hperf)]; simpl;
      [| exists "PERFORMER"; by split; [right |]].
    destruct (d !! "TITLE") as [album|] eqn:Halbum;
      [rewrite (proj2 (lookup_key_Done _ _ _) Halbum)
      | rewrite (lookup_key_Fail _ _ Halbum)]; simpl;
      [| exists "TITLE"; by split; [left |]].
    destruct Hmiss as [? | Hartist]; [done |].
    exists "PERFORMER". split; [by right |].
    destruct (decide (is_Some (d !! "REM DATE"))) as [[date Hdate] | _];
      [rewrite (proj2 (lookup_key_Done _ _ _) Hdate) |]; simpl;
      (destruct (decide (is_Some (d !! "REM GENRE"))) as [[g Hgenre] | _];
       [rewrite (proj2 (lookup_key_Done _ _ _) Hgenre) |]); simpl;
      by rewrite (lookup_key_Fail _ _ Hartist).
Qed.

Lemma fdkaac_cmd_on_parsed_witness :
  let d := parsed (parse_cue no_flags sheet_slash) in
  (∃ cmd, fdkaac_cmd d 1 = Done cmd)
  ∧ fdkaac_cmd (parsed (parse_cue no_flags sheet_123)) 2
    = Fail (Exn (KeyError "PERFORMER")).
Proof.
  intros d. split.
  - apply (proj1 (fdkaac_cmd_on_parsed no_flags sheet_slash d
                    [<["TITLE_RAW" := "Either/Or."]>
                       (<["TITLE" := "Either/Or."]>
                          (<["PERFORMER" := "Someone"]> ∅))] 1
                    ltac:(by vm_compute) ltac:(by vm_compute)
                    ltac:(simpl; lia))).
    split; by eexists.
  - by vm_compute.
Defined.

(** X11.  The index of [fdkaac_cmd] is read as Python reads an index less
    one: for [n] tracks the numbers 1 to [n] give the tracks in order, the
    numbers [1 - n] to 0 give them counted from the end (0 is the last
    track), and every other number is an [IndexError]. *)
Theorem fdkaac_cmd_index_range (cue_dict : gmap string value)
  (ts : list (gmap string string)) (track_index : Z) :
  cue_dict !! "TRACK_LIST" = Some (VList ts) →
  let n := Z.of_nat (length ts) in
  ((n < track_index ∨ track_index ≤ - n)%Z →
   fdkaac_cmd cue_dict track_index = Fail IndexError)
  ∧ ((1 ≤ track_index ≤ n)%Z →
     ∃ t, ts !! Z.to_nat (track_index - 1) = Some t
          ∧ track_at cue_dict track_index = Done t)
  ∧ ((- n < track_index ≤ 0)%Z →
     ∃ t, ts !! Z.to_nat (n + track_index - 1) = Some t
          ∧ track_at cue_dict track_index = Done t).
Proof.
  intros Hts n. unfold fdkaac_cmd, track_at.
  rewrite (proj2 (lookup_key_Done _ _ _) Hts). simpl. unfold getitem.
  fold n. split; [| split].
  - intros Hi. destruct (Z.ltb_spec (track_index - 1) 0).
    + destruct (Z.ltb_spec (track_index - 1 + n) 0); [done | lia].
    + destruct (Z.ltb_spec (track_index - 1) 0); [lia |].
      rewrite lookup_ge_None_2; [done | lia].
  - intros Hi. destruct (Z.ltb_spec (track_index - 1) 0); [lia |].
    destruct (Z.ltb_spec (track_index - 1) 0); [lia |].
    destruct (lookup_lt_is_Some_2 ts (Z.to_nat (track_index - 1)))
      as [t Ht]; [lia |].
    exists t. by rewrite Ht.
  - intros Hi. destruct (Z.ltb_spec (track_index - 1) 0); [| lia].
    destruct (Z.ltb_spec (track_index - 1 + n) 0); [lia |].
    destruct (lookup_lt_is_Some_2 ts (Z.to_nat (n + track_index - 1)))
      as [t Ht]; [lia |].
    exists t. replace (track_index - 1 + n)%Z with (n + track_index - 1)%Z
      by lia. by rewrite Ht.
Qed.

Lemma fdkaac_cmd_index_range_witness :
  let d := parsed (parse_cue no_flags sheet_slash) in
  fdkaac_cmd d 2 = Fail IndexError
  ∧ ∃ t, track_at d 0 = Done t ∧ t !! "TITLE" = Some "Either/Or.".
Proof.
  intros d.
  pose (t := <["TITLE_RAW" := "Either/Or."]>
               (<["TITLE" := "Either/Or."]>
                  (<["PERFORMER" := "Someone"]> ∅)) : gmap string string).
  destruct (fdkaac_cmd_index_range d [t] 2 ltac:(by vm_compute))
    as (Hout & _ & _).
  destruct (fdkaac_cmd_index_range d [t] 0 ltac:(by vm_compute))
    as (_ & _ & Hwrap).
  split; [apply Hout; simpl; lia |].
  destruct Hwrap as (t' & Ht' & Hat); [simpl; lia |].
  exists t'. split; [exact Hat |]. simpl in Ht'. injection Ht' as <-.
  by vm_compute.
Defined.

(** ** The files of two tracks *)

Lemma init_last s c : last s = Some c → init s +:+ String c "" = s.
Proof.
  induction s as [|a s IH]; [done |]. destruct s as [|b s].
  - by intros [= ->].
  - intros Hl. change (init (String a (String b s)))
      with (String a (init (String b s))).
    rewrite app_cons, IH; done.
Qed.

(** The stem of a track with an extension starts with the number of the
    track on its two digits or more and a dot. *)
Lemma stem_number i title stem ext :
  drop_final_dot (fname_stem i title) = Done stem →
  ∃ u, stem +:+ String "." ext = zfill 2 (str i) +:+ String "." u.
Proof.
  intros Hs.
  destruct (drop_final_dot_Done _ (fname_stem_nonempty i title))
    as (s & Hs' & _ & Hkeep & Hdrop).
  rewrite Hs in Hs'. injection Hs' as <-.
  destruct (decide (last (fname_stem i title) = Some "."%char)) as [Hl | Hl].
  - rewrite (Hdrop Hl). exists (replace "/" "-" title +:+ ext).
    change (String "." ext) with (String "." "" +:+ ext).
    rewrite <-app_assoc, (init_last _ _ Hl). unfold fname_stem.
    by rewrite !app_assoc.
  - rewrite (Hkeep Hl). exists (replace "/" "-" title +:+ String "." ext).
    unfold fname_stem. by rewrite !app_assoc.
Qed.

Lemma digits_dot_inj z1 z2 u1 u2 :
  all is_digit z1 = true → all is_digit z2 = true →
  z1 +:+ String "." u1 = z2 +:+ String "." u2 → z1 = z2.
Proof.
  revert z2. induction z1 as [|a z1 IH]; intros [|b z2]; simpl.
  - done.
  - intros _ [Hb _]%andb_prop. rewrite app_nil, app_cons.
    intros [= <- _]. done.
  - intros [Ha _]%andb_prop _. rewrite app_nil, app_cons.
    intros [= -> _]. done.
  - intros [_ H1]%andb_prop [_ H2]%andb_prop. rewrite !app_cons.
    intros [= -> He]. f_equal. by apply IH.
Qed.

Lemma to_int_nonnil z : Z.to_int z ≠ Decimal.Pos Decimal.Nil
                        ∧ Z.to_int z ≠ Decimal.Neg Decimal.Nil.
Proof.
  destruct z as [|p|p]; simpl; [done | |]; split; try done;
    intros [= H]; by apply DecimalPos.Unsigned.to_uint_nonnil in H.
Qed.

Lemma str_inj i j : str i = str j → i = j.
Proof.
  unfold str. intros H. apply DecimalZ.to_int_inj.
  apply (f_equal NilZero.int_of_string) in H.
  destruct (to_int_nonnil i), (to_int_nonnil j).
  rewrite !NilZero.isi in H by done. congruence.
Qed.

(** No number is written with a zero before another digit. *)
Lemma str_no_leading_zero j a : str j ≠ String "0" (String a "").
Proof.
  unfold str. intros H.
  apply (f_equal NilZero.int_of_string) in H.
  destruct (to_int_nonnil j). rewrite NilZero.isi in H by done.
  pose proof (DecimalZ.to_of (Z.to_int j)) as Hn.
  rewrite DecimalZ.of_to in Hn.
  revert H Hn. generalize (Z.to_int j). intros d H Hn.
  destruct a as [[] [] [] [] [] [] [] []]; vm_compute in H; try done;
    injection H as ->; by vm_compute in Hn.
Qed.

Lemma zfill_short a : is_digit a = true →
  zfill 2 (String a "") = String "0" (String a "").
Proof. by destruct a as [[] [] [] [] [] [] [] []]. Qed.

Lemma zfill_long a b s : is_digit a = true →
  zfill 2 (String a (String b s)) = String a (String b s).
Proof. by destruct a as [[] [] [] [] [] [] [] []]. Qed.

Lemma zfill_str_inj i j :
  (0 ≤ i)%Z → (0 ≤ j)%Z → zfill 2 (str i) = zfill 2 (str j) → i = j.
Proof.
  intros Hi Hj. destruct (str_digits i Hi) as [Hdi Hni].
  destruct (str_digits j Hj) as [Hdj Hnj].
  destruct (str i) as [|a [|a' si]] eqn:Hsi; [done | |];
    destruct (str j) as [|b [|b' sj]] eqn:Hsj; try done;
    simpl in Hdi, Hdj; apply andb_prop in Hdi as [Ha _];
    apply andb_prop in Hdj as [Hb _];
    rewrite ?zfill_short, ?zfill_long by done; intros He.
  - apply str_inj. rewrite Hsi, Hsj. by injection He as ->.
  - exfalso. apply (str_no_leading_zero j a). by rewrite Hsj, He.
  - exfalso. apply (str_no_leading_zero i b). by rewrite Hsi, He.
  - apply str_inj. by rewrite Hsi, Hsj.
Qed.

(** X12.  The commands of two different track numbers never name the same
    file, whatever the titles of the tracks: the output files differ, and so
    do the input files, because each name starts with its own number and a
    dot. *)
Theorem fdkaac_cmd_names_distinct (cue_dict : gmap string value)
  (i j : Z) (cmd_i cmd_j : list value) :
  (0 ≤ i)%Z → (0 ≤ j)%Z → i ≠ j →
  fdkaac_cmd cue_dict i = Done cmd_i →
  fdkaac_cmd cue_dict j = Done cmd_j →
  cmd_i !! 7 ≠ cmd_j !! 7
  ∧ List.last cmd_i (VStr "") ≠ List.last cmd_j (VStr "").
Proof.
  intros Hi Hj Hij
    (ti & rawi & titlei & ini & outi & _ & _ & _ & _ & _ & _ & Hini & Houti
       & H7i & Hlasti)%fdkaac_cmd_Done
    (tj & rawj & titlej & inj & outj & _ & _ & _ & _ & _ & _ & Hinj & Houtj
       & H7j & Hlastj)%fdkaac_cmd_Done.
  destruct (str_digits i Hi) as [Hdi Hni].
  destruct (str_digits j Hj) as [Hdj Hnj].
  destruct (zfill_digits 2 _ Hdi Hni) as [Hzi _].
  destruct (zfill_digits 2 _ Hdj Hnj) as [Hzj _].
  assert (∀ si sj ti' tj' ext,
            drop_final_dot (fname_stem i ti') = Done si →
            drop_final_dot (fname_stem j tj') = Done sj →
            si +:+ String "." ext ≠ sj +:+ String "." ext) as Hne.
  { intros si sj ti' tj' ext (ui & Hui)%(stem_number _ _ _ ext)
      (uj & Huj)%(stem_number _ _ _ ext) He.
    rewrite Hui, Huj in He. apply digits_dot_inj in He; [| done..].
    by apply Hij, zfill_str_inj. }
  split.
  - rewrite H7i, H7j. intros [= He]. by eapply (Hne outi outj).
  - rewrite Hlasti, Hlastj. rewrite !app_cons, !app_nil.
    intros [= He]. by eapply (Hne ini inj).
Qed.

Lemma fdkaac_cmd_names_distinct_witness :
  let d := parsed (parse_cue no_flags sheet_same_titles) in
  ∃ cmd_1 cmd_2,
    fdkaac_cmd d 1 = Done cmd_1 ∧ fdkaac_cmd d 2 = Done cmd_2
    ∧ cmd_1 !! 7 = Some (VStr "01.Intro.m4a")
    ∧ cmd_2 !! 7 = Some (VStr "02.Intro.m4a")
    ∧ cmd_1 !! 7 ≠ cmd_2 !! 7.
Proof.
  intros d.
  destruct (fdkaac_cmd d 1) as [cmd_1|] eqn:H1; [| by vm_compute in H1].
  destruct (fdkaac_cmd d 2) as [cmd_2|] eqn:H2; [| by vm_compute in H2].
  exists cmd_1, cmd_2. do 2 (split; [reflexivity |]).
  split; [revert H1; vm_compute; by intros [= <-] |].
  split; [revert H2; vm_compute; by intros [= <-] |].
  apply (fdkaac_cmd_names_distinct d 1 2 cmd_1 cmd_2);
    [lia | lia | lia | exact H1 | exact H2].
Defined.

(** * The question *)

Import Ask.

Lemma valid_lookup (choice : string) :
  valid !! choice =
  if bool_decide (choice ∈ ["yes"; "y"; "ye"]) then Some true
  else if bool_decide (choice ∈ ["no"; "n"]) then Some false
  else None.
Proof.
  unfold valid.
  destruct (decide (choice = "yes")) as [-> | Hyes]; [done |].
  destruct (decide (choice = "y")) as [-> | Hy]; [done |].
  destruct (decide (choice = "ye")) as [-> | Hye]; [done |].
  destruct (decide (choice = "no")) as [-> | Hno]; [done |].
  destruct (decide (choice = "n")) as [-> | Hn]; [done |].
  rewrite !lookup_insert_ne, lookup_empty by done.
  rewrite !bool_decide_eq_false_2; [done | |];
    rewrite !elem_of_cons, elem_of_nil; tauto.
Qed.

Lemma lower_empty (line : string) :
  String.eqb (lower line) "" = String.eqb line "".
Proof. by destruct line. Qed.

(** One turn of the loop on a line that is an answer. *)
Lemma ask_understood question p default line rest out :
  prompt default = Done p →
  understood default line = true →
  ask question p default (line :: rest) out
  = (Done (meaning default line),
     {| stdin := rest; stdout := (question +:+ p) :: out |}).
Proof.
  unfold understood, meaning, says_yes, says_no. intros Hp Hu. simpl.
  rewrite lower_empty, valid_lookup. revert Hu.
  destruct (String.eqb_spec line "") as [-> | Hline].
  - destruct default as [d|]; [| done]. intros _. simpl in Hp.
    destruct (String.eqb_spec d "yes") as [-> | Hd]; [done |].
    destruct (String.eqb_spec d "no") as [-> | Hd']; [| done].
    by rewrite bool_decide_eq_false_2.
  - rewrite andb_false_r, orb_false_r.
    destruct (bool_decide (lower line ∈ ["yes"; "y"; "ye"]));
      simpl; intros Hu; [by destruct default |].
    rewrite Hu. by destruct default.
Qed.

(** One turn of the loop on a line that is no answer. *)
Lemma ask_not_understood question p default line rest out :
  understood default line = false →
  ask question p default (line :: rest) out
  = ask question p default rest (reminder :: (question +:+ p) :: out).
Proof.
  unfold understood, says_yes, says_no. intros Hu.
  apply orb_false_elim in Hu as [Hu Hd].
  apply orb_false_elim in Hu as [Hyes Hno]. simpl.
  rewrite lower_empty, valid_lookup, Hyes, Hno.
  destruct default as [d|]; [| done].
  rewrite bool_decide_eq_true_2 in Hd by done. simpl in Hd. by rewrite Hd.
Qed.

Lemma asked_S question p n out :
  asked question p n (reminder :: (question +:+ p) :: out)
  = asked question p (S n) out.
Proof.
  unfold asked. f_equal. induction n as [|n IH]; [done |].
  change (mjoin (replicate (S n) ?l)) with (l ++ mjoin (replicate n l)).
  rewrite <-(assoc_L (++)), IH. done.
Qed.

Lemma ask_first_answer question p default rejected line rest out :
  prompt default = Done p →
  Forall (fun l => understood default l = false) rejected →
  understood default line = true →
  ask question p default (rejected ++ line :: rest) out
  = (Done (meaning default line),
     {| stdin := rest;
        stdout := asked question p (length rejected) out |}).
Proof.
  intros Hp Hr Hu. revert out.
  induction Hr as [|l rejected Hl _ IH]; intros out.
  - by apply ask_understood.
  - simpl. rewrite <-asked_S, <-IH. by apply ask_not_understood.
Qed.

Lemma ask_no_answer question p default lines out :
  Forall (fun l => understood default l = false) lines →
  ask question p default lines out
  = (Fail EOFError,
     {| stdin := []; stdout := asked question p (length lines) out |}).
Proof.
  intros Hr. revert out. induction Hr as [|l lines Hl _ IH]; intros out.
  - done.
  - simpl length. rewrite <-asked_S, <-IH. by apply ask_not_understood.
Qed.

(** The lines read split at the first answer, if there is one. *)
Lemma first_answer default (lines : list string) :
  Forall (fun l => understood default l = false) lines
  ∨ ∃ rejected line rest,
      lines = rejected ++ line :: rest
      ∧ Forall (fun l => understood default l = false) rejected
      ∧ understood default line = true.
Proof.
  induction lines as [|l lines IH]; [by left |].
  destruct (understood default l) eqn:Hl.
  - right. by exists [], l, lines.
  - destruct IH as [IH | (rejected & line & rest & -> & Hr & Hu)].
    + left. by constructor.
    + right. exists (l :: rejected), line, rest. by repeat constructor.
Qed.

(** X13.  With no default or the default yes or no, [query_yes_no] returns
    what the first line that is an answer says: a word for yes or no in any
    case of its letters, or the empty line for the default.  The lines
    before it are read and each one is answered by the reminder and the
    question again; the lines after it are left unread. *)
Theorem query_yes_no_first_answer (question : string)
  (default : option string) (p : string) (rejected : list string)
  (line : string) (rest out : list string) :
  prompt default = Done p →
  Forall (fun l => understood default l = false) rejected →
  understood default line = true →
  query_yes_no question default
    {| stdin := rejected ++ line :: rest; stdout := out |}
  = (Done (meaning default line),
     {| stdin := rest;
        stdout := asked question p (length rejected) out |}).
Proof.
  intros Hp Hr Hu. unfold query_yes_no. rewrite Hp. simpl.
  by apply ask_first_answer.
Qed.

Lemma query_yes_no_first_answer_witness :
  query_yes_no "Is this OK?" (Some "yes")
    {| stdin := ["maybe"; "N"; "y"]; stdout := [] |}
  = (Done false,
     {| stdin := ["y"];
        stdout := ["Is this OK? [Y/n] "; reminder; "Is this OK? [Y/n] "] |}).
Proof.
  apply (query_yes_no_first_answer "Is this OK?" (Some "yes") " [Y/n] "
           ["maybe"] "N" ["y"] []).
  - reflexivity.
  - repeat constructor.
  - reflexivity.
Defined.

(** X14.  [query_yes_no] fails in two ways only.  A default other than
    [None], yes and no (also a word for yes or no as [y]) is a [ValueError]
    before anything is written or read.  Otherwise the end of the input
    before any answer is an [EOFError], once every line was read and
    answered by the reminder; the default answer is never a [KeyError]. *)
Theorem query_yes_no_failures (question : string) (default : option string)
  (con con' : console) (e : py_exn) :
  query_yes_no question default con = (Fail e, con') →
  ((default ∉ [None; Some "yes"; Some "no"])
   ∧ e = Exn ValueError ∧ con' = con)
  ∨ (∃ p, prompt default = Done p
          ∧ e = EOFError
          ∧ Forall (fun l => understood default l = false) (stdin con)
          ∧ con' = {| stdin := [];
                      stdout := asked question p (length (stdin con))
                                  (stdout con) |}).
Proof.
  unfold query_yes_no. destruct (prompt default) as [p|e0] eqn:Hp.
  - intros Hask. right. exists p. split; [done |].
    destruct (first_answer default (stdin con))
      as [Hr | (rejected & line & rest & Hl & Hr & Hu)].
    + rewrite (ask_no_answer _ _ _ _ _ Hr) in Hask. by simplify_eq.
    + rewrite Hl, (ask_first_answer _ _ _ _ _ _ _ Hp Hr Hu) in Hask. done.
  - intros [= <- <-]. left. split; [| split; [| done]].
    + rewrite !elem_of_cons, elem_of_nil. intros [-> | [-> | [-> | []]]]; done.
    + destruct default as [d|]; [| done]. simpl in Hp.
      destruct (String.eqb d "yes"); [done |].
      destruct (String.eqb d "no"); [done |]. by injection Hp as <-.
Qed.

Lemma query_yes_no_failures_witness :
  let con := {| stdin := ["maybe"; "Yes."]; stdout := [] |} in
  ∃ p, prompt None = Done p
       ∧ Forall (fun l => understood None l = false) (stdin con)
       ∧ query_yes_no "Is this OK?" None con
         = (Fail EOFError,
            {| stdin := []; stdout := asked "Is this OK?" p 2 [] |}).
Proof.
  intros con.
  destruct (query_yes_no_failures "Is this OK?" None con
              {| stdin := [];
                 stdout := asked "Is this OK?" " [y/n] " 2 [] |} EOFError)
    as [(Hd & _) | (p & Hp & _ & Hr & Hc)].
  - reflexivity.
  - exfalso. apply Hd. by left.
  - exists p. split; [exact Hp |]. split; [exact Hr |].
    injection Hp as <-. reflexivity.
Defined.

(** * Further properties of the file resolver *)

Lemma file_at_Some fs f p : file_at fs f = Some p → resolved_file fs p.
Proof.
  unfold file_at. destruct (is_file fs f) eqn:Hf; [| done].
  intros [= <-]. by exists f.
Qed.

Lemma file_at_ext fs fs' f : same_files fs fs' → file_at fs f = file_at fs' f.
Proof. intros [Hf Hr]. unfold file_at. by rewrite Hf, Hr. Qed.

Lemma joinpath_abs p a : first a = Some "/"%char → p // a = of_str a.
Proof.
  intros Ha. unfold joinpath.
  replace (is_abs (of_str a)) with true; [done |].
  unfold of_str; simpl. by rewrite bool_decide_eq_true_2.
Qed.

(** X15.  A sheet, an audio file or a cover given on the command line is
    looked for by its name only: no directory is listed, so two file systems
    with the same files give the same result whatever their directories
    list, and for the audio file whatever the sheet says, for the cover
    whatever the sorting function is. *)
Theorem explicit_arguments_never_scan (fs fs' : FileSystem) (flags : Flags)
  (natsorted natsorted' : (Path → string) → list Path → list Path)
  (rootdir : option Path) (cue_path : Path) (d d' : gmap string value) :
  same_files fs fs' →
  (is_Some (cue flags) →
   determine_cue fs flags rootdir = determine_cue fs' flags rootdir)
  ∧ (is_Some (wav flags) →
     determine_wav fs flags rootdir cue_path d
     = determine_wav fs' flags rootdir cue_path d')
  ∧ (is_Some (cover flags) →
     determine_cover fs flags natsorted rootdir cue_path
     = determine_cover fs' flags natsorted' rootdir cue_path).
Proof.
  intros Hsame. pose proof (fun f => file_at_ext fs fs' f Hsame) as Hat.
  destruct Hsame as [Hf Hr]. split; [| split].
  - intros [c Hc]. unfold determine_cue. rewrite Hc.
    destruct rootdir; by rewrite Hf, Hr.
  - intros [w Hw]. unfold determine_wav. rewrite Hw.
    destruct rootdir; simpl; by rewrite !Hat.
  - intros [c Hc]. unfold determine_cover. rewrite Hc.
    destruct c as [|a c]; [done |].
    destruct rootdir; simpl; by rewrite !Hat.
Qed.

Lemma explicit_arguments_never_scan_witness :
  let fs := fs_of ["disc.cue"; "disc.flac"] in
  let fs' := relisted fs ["other.cue"; "other.flac"; "other.png"] in
  same_files fs fs'
  ∧ determine_cue fs' (file_flags "disc.cue") (Some album)
    = Ok (child album "disc.cue")
  ∧ determine_wav fs' (file_flags "disc.flac") (Some album)
      (child album "disc.cue") ∅
    = Ok (child album "disc.flac").
Proof.
  intros fs fs'. assert (same_files fs fs') as Hsame by done.
  split; [exact Hsame |]. split.
  - rewrite <-(proj1 (explicit_arguments_never_scan fs fs'
                        (file_flags "disc.cue") (fun _ l => l) (fun _ l => l)
                        (Some album) album ∅ ∅ Hsame)); [| by eexists].
    by vm_compute.
  - rewrite <-(proj1 (proj2 (explicit_arguments_never_scan fs fs'
                        (file_flags "disc.flac") (fun _ l => l) (fun _ l => l)
                        (Some album) (child album "disc.cue") ∅ ∅ Hsame)));
      [| by eexists].
    by vm_compute.
Defined.



Lemma result_bind_Ok {A B} (m : result A) (k : A → result B) b :
  m ≫= k = Ok b → ∃ a, m = Ok a ∧ k a = Ok b.
Proof. destruct m as [a|e]; [by exists a | done]. Qed.

Lemma audio_files_file fs dir ws w :
  audio_files fs dir = Ok ws → w ∈ ws → is_file fs w = true.
Proof.
  unfold audio_files. intros (entries & _ & [= <-])%result_bind_Ok.
  by intros [[? _] _]%list_elem_of_filter.
Qed.

Lemma audio_files_single fs dir w :
  audio_files fs dir = Ok [w] → resolved_file fs (resolve fs w).
Proof.
  intros Hw. exists w. split; [| done].
  apply (audio_files_file fs dir [w] w Hw). by left.
Qed.

Lemma scan_covers_ext fs fs' es pics :
  same_files fs fs' → scan_covers fs es pics = scan_covers fs' es pics.
Proof.
  intros [Hf Hr]. revert pics. induction es as [|x es IH]; intros pics; simpl.
  - done.
  - rewrite <-Hf, <-Hr, !IH. done.
Qed.

Lemma natsorted_head (ns : (Path → string) → list Path → list Path)
  key (l : list Path) p ps :
  (∀ key l, ns key l ≡ₚ l) → ns key l = p :: ps → p ∈ l.
Proof. intros Hns He. rewrite <-(Hns key l), He. by left. Qed.

Lemma determine_wav_Ok fs flags rootdir cue_path d p :
  wav flags = None →
  determine_wav fs flags rootdir cue_path d = Ok p →
  (∃ f dir, d !! "FILE" = Some (VStr f)
            ∧ dir ∈ search_dirs rootdir cue_path
            ∧ is_file fs (dir // f) = true ∧ p = resolve fs (dir // f))
  ∨ (∃ dir w, dir ∈ search_dirs rootdir cue_path
              ∧ audio_files fs dir = Ok [w] ∧ p = resolve fs w).
Proof.
  intros Hw. unfold determine_wav. rewrite Hw.
  intros (found & Hfound & Hrest)%result_bind_Ok.
  assert (∃ f, d !! "FILE" = Some (VStr f)) as [f Hf].
  { destruct found as [p0|].
    - destruct rootdir as [r|]; [| done].
      apply result_bind_Ok in Hfound as (f & Hf & _).
      unfold declared_file in Hf. destruct (d !! "FILE") as [[s|l]|]; [| done..].
      by exists s.
    - apply result_bind_Ok in Hrest as (f & Hf & _).
      unfold declared_file in Hf. destruct (d !! "FILE") as [[s|l]|]; [| done..].
      by exists s. }
  assert (declared_file d = Ok f) as Hd by (unfold declared_file; by rewrite Hf).
  rewrite Hd in Hfound, Hrest. simpl in Hfound, Hrest.
  unfold search_dirs.
  destruct found as [p0|].
  - injection Hrest as ->. destruct rootdir as [r|]; [| done].
    injection Hfound as Hfound. unfold file_at in Hfound.
    destruct (is_file fs (r // f)) eqn:Hfile; [| done]. injection Hfound as <-.
    left. exists f, r. split; [done |]. split; [by left | done].
  - unfold file_at in Hrest.
    destruct (is_file fs (parent cue_path // f)) eqn:Hfile.
    + injection Hrest as <-. left. exists f, (parent cue_path).
      split; [done |]. split; [| done].
      apply elem_of_app. right. by left.
    + apply result_bind_Ok in Hrest as (scanned & Hscan & Hrest). right.
      destruct scanned as [p0|].
      * injection Hrest as ->. destruct rootdir as [r|]; [| done].
        apply result_bind_Ok in Hscan as (wavs & Ha & Hscan).
        destruct wavs as [|w [|w' ws]]; [done | | done].
        injection Hscan as <-. exists r, w. split; [by left | done].
      * apply result_bind_Ok in Hrest as (wavs & Ha & Hrest).
        destruct wavs as [|w [|w' ws]]; [done | | done].
        injection Hrest as <-. exists (parent cue_path), w.
        split; [| done]. apply elem_of_app. right. by left.
Qed.

(** What a scan of covers gives is a file, or files only. *)
Lemma scan_covers_files fs es pics :
  (∀ x, x ∈ pics → is_file fs x = true) →
  match scan_covers fs es pics with
  | inl q => resolved_file fs q
  | inr pics' => ∀ x, x ∈ pics' → is_file fs x = true
  end.
Proof.
  intros Hpics. pose proof (scan_covers_spec fs es pics) as Hs.
  destruct (scan_covers fs es pics) as [q | pics'].
  - destruct Hs as (x & _ & [Hx _] & ->). by exists x.
  - destruct Hs as [_ ->]. intros x [Hx | Hx]%elem_of_app; [by apply Hpics |].
    by apply list_elem_of_filter in Hx as [[? _] _].
Qed.

(** X17.  What the three resolvers return is a file that exists, resolved
    by the system: [determine_cue] and [determine_wav] when they return, and
    [determine_cover] when it returns a path, for a sorting function that
    permutes its list. *)
Theorem resolved_paths_are_files (fs : FileSystem) (flags : Flags)
  (natsorted : (Path → string) → list Path → list Path)
  (rootdir : option Path) (cue_path : Path) (d : gmap string value)
  (p : Path) :
  (∀ key l, natsorted key l ≡ₚ l) →
  (determine_cue fs flags rootdir = Ok p → resolved_file fs p)
  ∧ (determine_wav fs flags rootdir cue_path d = Ok p → resolved_file fs p)
  ∧ (determine_cover fs flags natsorted rootdir cue_path = Ok (Some p) →
     resolved_file fs p).
Proof.
  intros Hns. split; [| split].
  - unfold determine_cue. destruct (cue flags) as [c|].
    + destruct rootdir as [r|].
      * destruct (is_file fs (r // c)) eqn:Hf; [| done].
        intros [= <-]. by eexists.
      * destruct (is_file fs (of_str c)) eqn:Hf; [| done].
        intros [= <-]. by eexists.
    + destruct rootdir as [r|]; [| done].
      intros (entries & _ & Hc)%result_bind_Ok. revert Hc.
      destruct (filter _ _) as [|x xs] eqn:Hx; [done |].
      intros [= <-]. exists x. split; [| done].
      assert (x ∈ filter (fun x => is_file fs x = true
                                    ∧ lower (suffix x) = ".cue")
                         entries) as Hin by (rewrite Hx; by left).
      by apply list_elem_of_filter in Hin as [[? _] _].
  - destruct (wav flags) as [w|] eqn:Hw.
    + unfold determine_wav. rewrite Hw.
      destruct (rootdir ≫= _) as [p0|] eqn:H1.
      { intros [= <-]. destruct rootdir as [r|]; [| done].
        by eapply file_at_Some. }
      destruct (file_at fs (of_str w)) as [p0|] eqn:H2.
      { intros [= <-]. by eapply file_at_Some. }
      destruct (file_at fs (parent cue_path // w)) as [p0|] eqn:H3; [| done].
      intros [= <-]. by eapply file_at_Some.
    + intros [(f & dir & _ & _ & Hf & ->) | (dir & w & _ & Ha & ->)]%determine_wav_Ok;
        [by eexists | by eapply audio_files_single | done].
  - unfold determine_cover. destruct (cover flags) as [c|].
    + destruct c as [|a c]; [done |].
      destruct (rootdir ≫= _) as [p0|] eqn:H1.
      { intros [= <-]. destruct rootdir as [r|]; [| done].
        by eapply file_at_Some. }
      destruct (file_at fs (of_str _)) as [p0|] eqn:H2.
      { intros [= <-]. by eapply file_at_Some. }
      destruct (file_at fs (parent cue_path // _)) as [p0|] eqn:H3; [| done].
      intros [= <-]. by eapply file_at_Some.
    + intros (scanned1 & Hs1 & Hrest)%result_bind_Ok.
      assert (match scanned1 with
              | inl q => resolved_file fs q
              | inr pics' => ∀ x, x ∈ pics' → is_file fs x = true
              end) as H1.
      { destruct rootdir as [r|].
        - apply result_bind_Ok in Hs1 as (entries & _ & [= <-]).
          apply scan_covers_files. by intros x ?%elem_of_nil.
        - injection Hs1 as <-. by intros x ?%elem_of_nil. }
      destruct scanned1 as [q | pics1]; [by injection Hrest as -> |].
      apply result_bind_Ok in Hrest as (scanned2 & Hs2 & Hrest).
      assert (match scanned2 with
              | inl q => resolved_file fs q
              | inr pics' => ∀ x, x ∈ pics' → is_file fs x = true
              end) as H2.
      { destruct (length pics1 =? 0)%nat.
        - apply result_bind_Ok in Hs2 as (entries & _ & [= <-]).
          by apply scan_covers_files.
        - by injection Hs2 as <-. }
      destruct scanned2 as [q | pics2]; [by injection Hrest as -> |].
      revert Hrest. destruct (1 <? length pics2)%nat.
      * destruct (natsorted _ pics2) as [|x xs] eqn:Hx; [done |].
        intros [= <-]. exists x. split; [| done].
        apply H2. by eapply natsorted_head.
      * destruct pics2 as [|x xs]; [done |].
        intros [= <-]. exists x. split; [| done]. apply H2. by left.
Qed.

Lemma resolved_paths_are_files_witness :
  let fs := fs_of ["b.png"; "a.png"; "disc.cue"] in
  ∃ p, determine_cover fs no_flags (fun _ l => l) (Some album)
         (child album "disc.cue") = Ok (Some p)
       ∧ resolved_file fs p.
Proof.
  intros fs. exists (child album "b.png"). split; [by vm_compute |].
  apply (proj2 (proj2 (resolved_paths_are_files fs no_flags (fun _ l => l)
                         (Some album) (child album "disc.cue") ∅
                         (child album "b.png") (fun _ l => reflexivity l)))).
  by vm_compute.
Defined.

(** X18.  Without an audio argument, the file that the sheet declares is
    taken where it exists, in the root directory first and next to the sheet
    second, whatever audio files the directories hold: no directory is
    scanned. *)
Theorem declared_file_wins (fs : FileSystem) (flags : Flags)
  (rootdir : option Path) (cue_path : Path) (d : gmap string value)
  (f : string) :
  wav flags = None → d !! "FILE" = Some (VStr f) →
  (∀ r, rootdir = Some r → is_file fs (r // f) = true →
        determine_wav fs flags rootdir cue_path d
        = Ok (resolve fs (r // f)))
  ∧ ((∀ r, rootdir = Some r → is_file fs (r // f) = false) →
     is_file fs (parent cue_path // f) = true →
     determine_wav fs flags rootdir cue_path d
     = Ok (resolve fs (parent cue_path // f))).
Proof.
  intros Hw Hf. unfold determine_wav, declared_file, file_at.
  rewrite Hw, Hf. split.
  - intros r -> Hr. simpl. by rewrite Hr.
  - intros Hroot Hsheet. destruct rootdir as [r|]; simpl.
    + rewrite (Hroot r eq_refl). simpl. by rewrite Hsheet.
    + by rewrite Hsheet.
Qed.

Lemma declared_file_wins_witness :
  let fs := fs_of ["a.flac"; "b.flac"; "disc.cue"] in
  let d := parsed (parse_cue no_flags sheet_file) in
  audio_files fs album = Ok [child album "a.flac"; child album "b.flac"]
  ∧ determine_wav fs no_flags (Some album) (child album "disc.cue") d
    = Ok (child album "b.flac").
Proof.
  intros fs d. split; [by vm_compute |].
  apply (proj1 (declared_file_wins fs no_flags (Some album)
                  (child album "disc.cue") d "b.flac" eq_refl
                  ltac:(by vm_compute)) album eq_refl).
  by vm_compute.
Defined.

(** X19.  Without an audio argument, an audio file that [determine_wav]
    returns is the file that the sheet declares, in one of the two
    directories, or else the only audio file of its directory: the function
    never chooses among several.  Two audio files or more in the root
    directory, when the declared file is nowhere, are a failure, whatever
    the directory of the sheet holds. *)
Theorem determine_wav_scan_unique (fs : FileSystem) (flags : Flags)
  (rootdir : option Path) (cue_path : Path) (d : gmap string value) :
  wav flags = None →
  (∀ p, determine_wav fs flags rootdir cue_path d = Ok p →
     (∃ f dir, d !! "FILE" = Some (VStr f)
               ∧ dir ∈ search_dirs rootdir cue_path
               ∧ is_file fs (dir // f) = true ∧ p = resolve fs (dir // f))
     ∨ (∃ dir w, dir ∈ search_dirs rootdir cue_path
                 ∧ audio_files fs dir = Ok [w] ∧ p = resolve fs w))
  ∧ (∀ r f wavs, rootdir = Some r → d !! "FILE" = Some (VStr f) →
       is_file fs (r // f) = false →
       is_file fs (parent cue_path // f) = false →
       audio_files fs r = Ok wavs → (1 < length wavs)%nat →
       determine_wav fs flags rootdir cue_path d
       = Raise (TypeError "exceptions must derive from BaseException")).
Proof.
  intros Hw. split.
  - intros p. by apply determine_wav_Ok.
  - intros r f wavs -> Hf Hroot Hsheet Ha Hlen.
    unfold determine_wav, declared_file, file_at. rewrite Hw, Hf. simpl.
    rewrite Hroot. simpl. rewrite Hsheet, Ha. simpl.
    destruct wavs as [|w [|w' ws]]; simpl in Hlen; [lia.. |].
    done.
Qed.

Lemma determine_wav_scan_unique_witness :
  let fs := fs_of ["a.flac"; "b.flac"; "disc.cue"] in
  let d := parsed (parse_cue no_flags sheet_file_missing) in
  determine_wav fs no_flags (Some album) (child album "disc.cue") d
  = Raise (TypeError "exceptions must derive from BaseException")
  ∧ determine_wav (fs_of ["a.flac"; "disc.cue"]) no_flags (Some album)
      (child album "disc.cue") d
    = Ok (child album "a.flac").
Proof.
  intros fs d. split.
  - apply (proj2 (determine_wav_scan_unique fs no_flags (Some album)
                    (child album "disc.cue") d eq_refl) album "c.flac"
             [child album "a.flac"; child album "b.flac"] eq_refl);
      [by vm_compute | by vm_compute | by vm_compute | by vm_compute |].
    simpl. lia.
  - by vm_compute.
Defined.

(** The choice among the images collected. *)
Lemma pick_cover fs (ns : (Path → string) → list Path → list Path) key
  (pics : list Path) :
  (∀ key l, ns key l ≡ₚ l) →
  ∃ r : option Path,
    match (if (1 <? length pics)%nat then ns key pics else pics) with
    | [] => Ok None
    | p :: _ => Ok (Some (resolve fs p))
    end = Ok r
    ∧ (r = None ↔ pics = []).
Proof.
  intros Hns. destruct (1 <? length pics)%nat.
  - destruct (ns key pics) as [|p ps] eqn:Hp.
    + exists None. split; [done |]. split; [| done]. intros _.
      apply Permutation_nil. by rewrite <-(Hns key pics), Hp.
    + exists (Some (resolve fs p)). split; [done |]. split; [done |].
      intros ->. pose proof (Hns key []) as Hnil. rewrite Hp in Hnil.
      by apply Permutation_nil_r in Hnil.
  - destruct pics as [|p ps]; [by exists None |].
    exists (Some (resolve fs p)). by split.
Qed.



(** X21.  Without a cover argument, when the root directory lists a file
    with a priority name or the suffix of an image, the cover is chosen in
    the root directory: the directory of the sheet is not listed, so the
    result is the same wherever the sheet is and whatever the other
    directories list. *)
Theorem root_covers_shadow_sheet_directory (fs fs' : FileSystem)
  (flags : Flags) (natsorted : (Path → string) → list Path → list Path)
  (rootdir cue_path cue_path' x : Path) (entries : list Path) :
  cover flags = None →
  same_files fs fs' → listdir fs rootdir = listdir fs' rootdir →
  iterdir fs rootdir = Ok entries →
  x ∈ entries → is_priority_cover fs x ∨ is_picture fs x →
  determine_cover fs flags natsorted (Some rootdir) cue_path
  = determine_cover fs' flags natsorted (Some rootdir) cue_path'.
Proof.
  intros Hc Hsame Hl Hdir Hx Hcand. unfold determine_cover. rewrite Hc.
  replace (iterdir fs' rootdir) with (iterdir fs rootdir)
    by (unfold iterdir; by rewrite Hl).
  rewrite Hdir. simpl.
  rewrite <-(scan_covers_ext fs fs' _ _ Hsame).
  pose proof (scan_covers_spec fs entries []) as H1.
  destruct (scan_covers fs entries []) as [q | pics1]; [done |].
  destruct H1 as [Hno Hpics1]. simpl in Hpics1.
  destruct Hcand as [Hp | Hp]; [by apply Hno in Hp |].
  assert (x ∈ pics1) as Hin by (rewrite Hpics1; by apply list_elem_of_filter).
  destruct pics1 as [|y ys]; [by apply elem_of_nil in Hin |]. simpl.
  destruct Hsame as [_ Hr].
  destruct (if (1 <? S (length ys))%nat then _ else _); [done |].
  by rewrite Hr.
Qed.

Lemma root_covers_shadow_sheet_directory_witness :
  let fs := fs_of ["scan.png"; "disc.cue"] in
  let fs' := relisted_elsewhere fs ["cover.jpg"] in
  determine_cover fs' no_flags (fun _ l => l) (Some album)
    (child discs "disc.cue")
  = Ok (Some (child album "scan.png")).
Proof.
  intros fs fs'.
  rewrite <-(root_covers_shadow_sheet_directory fs fs' no_flags
               (fun _ l => l) album (child album "disc.cue")
               (child discs "disc.cue") (child album "scan.png")
               [child album "scan.png"; child album "disc.cue"]
               eq_refl);
    [by vm_compute | done | by vm_compute | reflexivity | by left | right].
  split; [by vm_compute |]. apply (bool_decide_eq_true_1 _). by vm_compute.
Defined.
